(** * re2_nif: the option and capture marshalling layer of the re2 NIF

    A shallow embedding of [c_src/re2_nif.cpp].  Host terms ([ERL_NIF_TERM])
    are an inductive type, the [enif_*] calls the code makes are functions on
    it, the regex engine ([re2::RE2]) is a record of the observations the NIF
    makes on it, and the host allocator is an explicit state threaded through
    every call that allocates. *)

From Stdlib Require Import ZArith List String Bool Lia.
From Stdlib Require Import Strings.Byte.
Import ListNotations.

Local Open Scope Z_scope.

(* ================================================================= *)
(** ** C integers *)

Module CInt.

Definition INT_MIN : Z := - 2 ^ 31.
Definition INT_MAX : Z := 2 ^ 31 - 1.

(** Conversion to [int]: the value modulo 2^32, read as two's complement. *)
Definition to_int (z : Z) : Z := (z + 2 ^ 31) mod 2 ^ 32 - 2 ^ 31.

(** Conversion to [size_t] (64 bits). *)
Definition to_size_t (z : Z) : Z := z mod 2 ^ 64.

Definition fits_int (z : Z) : bool := (INT_MIN <=? z) && (z <=? INT_MAX).

End CInt.
Export CInt.

(* ================================================================= *)
(** ** The regex engine, as the NIF sees it *)

(** A [re2::StringPiece] handed back by the engine: either the default
    constructed piece ([data() == nullptr], [size() == 0]), which the engine
    stores for a group that took no part in the match, or a window of the
    subject ([data() == s.data() + pos], [size() == len]). *)
Inductive StringPiece : Type :=
| sp_null
| sp_sub (pos len : Z).

Definition sp_size (p : StringPiece) : Z :=
  match p with
  | sp_null => 0
  | sp_sub _ len => len
  end.

Definition sp_empty (p : StringPiece) : bool := sp_size p =? 0.

(** [match.data() - str.data()] *)
Definition sp_offset (p : StringPiece) : Z :=
  match p with
  | sp_null => 0
  | sp_sub pos _ => pos
  end.

(** The bytes [memcpy] reads from a piece of the subject [s]. *)
Definition sp_bytes (s : list byte) (p : StringPiece) : list byte :=
  match p with
  | sp_null => []
  | sp_sub pos len => firstn (Z.to_nat len) (skipn (Z.to_nat pos) s)
  end.

(** [re2::RE2::ErrorCode]: the codes the NIF's switch names, and
    [ErrorCodeOther] for any other value of the enumeration, which the
    switch handles under its [default:] label. *)
Inductive ErrorCode : Type :=
| NoError
| ErrorInternal
| ErrorBadEscape
| ErrorBadCharClass
| ErrorBadCharRange
| ErrorMissingBracket
| ErrorMissingParen
| ErrorTrailingBackslash
| ErrorRepeatArgument
| ErrorRepeatSize
| ErrorRepeatOp
| ErrorBadPerlOp
| ErrorBadUTF8
| ErrorBadNamedCapture
| ErrorPatternTooLarge
| ErrorCodeOther (value : Z).

(** [re2::RE2::Options], the three fields the NIF touches. *)
Record RE2_Options : Type := mkRE2Options {
  case_sensitive : bool;
  max_mem : Z;
  log_errors : bool
}.

Definition set_case_sensitive (b : bool) (o : RE2_Options) : RE2_Options :=
  mkRE2Options b (max_mem o) (log_errors o).

Definition set_max_mem (m : Z) (o : RE2_Options) : RE2_Options :=
  mkRE2Options (case_sensitive o) m (log_errors o).

Definition set_log_errors (b : bool) (o : RE2_Options) : RE2_Options :=
  mkRE2Options (case_sensitive o) (max_mem o) b.

(** A constructed [re2::RE2] object.  The engine is external to the NIF: the
    record lists what the NIF observes of it.  [captures s startpos] is the
    outcome of an unanchored search of [s] from [startpos]: [None] when there
    is no match, otherwise the submatch vector, whole match first.
    [Replace] and [GlobalReplace] are [RE2::Replace] and [RE2::GlobalReplace]
    applied to a text and a rewrite template: the value returned and the text
    left in [*str]. *)
Record RE2 : Type := mkRE2 {
  ok : bool;
  error_code : ErrorCode;
  error : list byte;
  error_arg : list byte;
  NumberOfCapturingGroups : Z;
  NamedCapturingGroups : list (list byte * Z);
  captures : list byte -> Z -> option (list StringPiece);
  Replace : list byte -> list byte -> bool * list byte;
  GlobalReplace : list byte -> list byte -> Z * list byte
}.

(** What [RE2::Match] leaves in [submatch[0 .. n-1]]: the first [n] entries of
    the submatch vector, entries the pattern does not have being set to the
    default piece. *)
Fixpoint submatch (n : nat) (caps : list StringPiece) : list StringPiece :=
  match n with
  | O => []
  | S n' =>
      match caps with
      | [] => sp_null :: submatch n' []
      | c :: caps' => c :: submatch n' caps'
      end
  end.

(** [re->Match(s, startpos, s.size(), RE2::UNANCHORED, group.data(), n)]:
    [None] for [false], otherwise the [n] pieces written to [group]. *)
Definition RE2_Match (re : RE2) (s : list byte) (startpos : Z) (n : Z)
  : option (list StringPiece) :=
  match captures re s (to_size_t startpos) with
  | None => None
  | Some caps => Some (submatch (Z.to_nat n) caps)
  end.

(** [nmap.find(key)] on the [std::map] of named groups. *)
Fixpoint nmap_find (nmap : list (list byte * Z)) (key : list byte) : option Z :=
  match nmap with
  | [] => None
  | (k, v) :: rest =>
      if list_eq_dec Byte.byte_eq_dec k key then Some v else nmap_find rest key
  end.

(** [group[i]].  The NIF only indexes slots the engine has written; outside
    them the model reads the default piece. *)
Definition group_at (group : list StringPiece) (i : Z) : StringPiece :=
  nth (Z.to_nat i) group sp_null.

(* ================================================================= *)
(** ** Host terms and the [enif_*] interface *)

(** [struct re2_handle]: [re] is [None] for [nullptr]. *)
Record re2_handle : Type := mk_handle { re : option RE2 }.

(** [ERL_NIF_TERM].  An atom is the list of its code points; lists are cons
    cells, so improper lists are terms too; [TOther] stands for every term
    the NIF never looks into (floats, pids, funs, maps, resources of another
    type). *)
#[warnings="-register-all"]
Inductive term : Type :=
| TAtom (name : list N)
| TInt (z : Z)
| TNil
| TCons (hd tl : term)
| TTuple (elts : list term)
| TBinary (data : list byte)
| TResource (h : re2_handle)
| TOther (tag : nat).

(** The atom written [s] in the source. *)
Definition enif_make_atom (s : string) : term :=
  TAtom (map Byte.to_N (list_byte_of_string s)).

Fixpoint names_eqb (a b : list N) : bool :=
  match a, b with
  | [], [] => true
  | x :: a', y :: b' => N.eqb x y && names_eqb a' b'
  | _, _ => false
  end.

(** [enif_is_identical(t, a)] where [a] is one of the atoms of [init_atoms]. *)
Definition enif_is_identical (t a : term) : bool :=
  match t, a with
  | TAtom n, TAtom m => names_eqb n m
  | _, _ => false
  end.

Definition enif_is_atom (t : term) : bool :=
  match t with
  | TAtom _ => true
  | _ => false
  end.

Definition enif_is_empty_list (t : term) : bool :=
  match t with
  | TNil => true
  | _ => false
  end.

(** [enif_get_int]: succeeds on an integer that fits a C [int]. *)
Definition enif_get_int (t : term) : option Z :=
  match t with
  | TInt z => if fits_int z then Some z else None
  | _ => None
  end.

Definition enif_make_int (z : Z) : term := TInt z.

Fixpoint enif_make_list (l : list term) : term :=
  match l with
  | [] => TNil
  | x :: l' => TCons x (enif_make_list l')
  end.

(** [enif_make_list_from_array(env, arr, cnt)] *)
Definition enif_make_list_from_array (arr : list term) (cnt : Z) : term :=
  enif_make_list (firstn (Z.to_nat cnt) arr).

(** The prefix of a buffer up to its first NUL: what a [char*] denotes. *)
Fixpoint c_str (buf : list byte) : list byte :=
  match buf with
  | [] => []
  | b :: buf' => if Byte.eqb b x00 then [] else b :: c_str buf'
  end.

(** [enif_make_string(env, s.c_str(), ERL_NIF_LATIN1)] *)
Definition enif_make_string (s : list byte) : term :=
  enif_make_list (map (fun b => TInt (Z.of_N (Byte.to_N b))) (c_str s)).

(** [enif_get_list_length]: the length of a proper list. *)
Fixpoint enif_get_list_length (t : term) : option Z :=
  match t with
  | TNil => Some 0
  | TCons _ tl =>
      match enif_get_list_length tl with
      | Some n => Some (n + 1)
      | None => None
      end
  | _ => None
  end.

(** Latin-1 encoding of a sequence of code points. *)
Fixpoint latin1 (cps : list N) : option (list byte) :=
  match cps with
  | [] => Some []
  | c :: cps' =>
      match Byte.of_N c, latin1 cps' with
      | Some b, Some bs => Some (b :: bs)
      | _, _ => None
      end
  end.

(** [enif_get_atom_length(env, t, &len, ERL_NIF_LATIN1)] *)
Definition enif_get_atom_length (t : term) : option Z :=
  match t with
  | TAtom name =>
      match latin1 name with
      | Some bs => Some (Z.of_nat (List.length bs))
      | None => None
      end
  | _ => None
  end.

(** [enif_get_atom(env, t, buf, len, ERL_NIF_LATIN1)]: the number of bytes
    written, terminating NUL included, and the characters written; 0 when the
    term is not a Latin-1 atom or the buffer is too short. *)
Definition enif_get_atom (t : term) (len : Z) : Z * list byte :=
  match t with
  | TAtom name =>
      match latin1 name with
      | Some bs =>
          if Z.of_nat (List.length bs) <? len
          then (Z.of_nat (List.length bs) + 1, bs)
          else (0, [])
      | None => (0, [])
      end
  | _ => (0, [])
  end.

Definition is_byte (z : Z) : bool := (0 <=? z) && (z <? 256).

(** [enif_get_string(env, list, buf, len, ERL_NIF_LATIN1)], with [n]
    characters already written: bytes written including the NUL, [- len] on
    truncation, 0 when the list is not a string. *)
Fixpoint enif_get_string_from (l : term) (len n : Z) (acc : list byte)
  : Z * list byte :=
  match l with
  | TNil => (n + 1, acc)
  | TCons (TInt z) tl =>
      if is_byte z then
        if n + 1 >=? len then (- len, acc)
        else
          match Byte.of_N (Z.to_N z) with
          | Some b => enif_get_string_from tl len (n + 1) (acc ++ [b])
          | None => (0, acc)
          end
      else (0, acc)
  | _ => (0, acc)
  end.

Definition enif_get_string (l : term) (len : Z) : Z * list byte :=
  if len <? 1 then (0, []) else enif_get_string_from l len 0 [].

(** [enif_inspect_iolist_as_binary]: the bytes of a binary or of an iolist. *)
Fixpoint enif_inspect_iolist_as_binary (t : term) : option (list byte) :=
  match t with
  | TBinary b => Some b
  | TNil => Some []
  | TCons h tl =>
      let hd :=
        match h with
        | TInt z => if is_byte z
                    then option_map (fun b => [b]) (Byte.of_N (Z.to_N z))
                    else None
        | _ => enif_inspect_iolist_as_binary h
        end in
      match hd, enif_inspect_iolist_as_binary tl with
      | Some a, Some b => Some (a ++ b)
      | _, _ => None
      end
  | _ => None
  end.

(** [enif_get_resource(env, t, re2_resource_type, &handle.vp)] *)
Definition enif_get_resource (t : term) : option re2_handle :=
  match t with
  | TResource h => Some h
  | _ => None
  end.

(** [argv[i]] and [tuple[i]] *)
Definition term_at (ts : list term) (i : nat) : term := nth i ts TNil.

(** Outcome of a NIF call: a term, the [badarg] exception raised by
    [enif_make_badarg], or a store through a null pointer. *)
Inductive nif_result : Type :=
| Return (t : term)
| Badarg
| Segfault.

(* ================================================================= *)
(** ** The host allocator *)

(** Whether each of the coming allocations succeeds, in call order; past the
    end of the list every allocation succeeds.  [enif_alloc],
    [enif_alloc_binary] and [enif_alloc_resource] all draw from it. *)
Definition allocator : Type := list bool.

Definition enif_alloc (h : allocator) : bool * allocator :=
  match h with
  | [] => (true, [])
  | b :: h' => (b, h')
  end.

Definition enif_alloc_binary (h : allocator) : bool * allocator := enif_alloc h.

Definition enif_alloc_resource (h : allocator) : bool * allocator := enif_alloc h.

(** An allocator that never fails during the calls to come. *)
Definition never_fails (h : allocator) : Prop := Forall (fun b => b = true) h.

(* ================================================================= *)
(** ** Static atoms ([init_atoms]) *)

Definition a_ok := enif_make_atom "ok".
Definition a_error := enif_make_atom "error".
Definition a_match := enif_make_atom "match".
Definition a_nomatch := enif_make_atom "nomatch".
Definition a_capture := enif_make_atom "capture".
Definition a_global := enif_make_atom "global".
Definition a_offset := enif_make_atom "offset".
Definition a_all := enif_make_atom "all".
Definition a_all_but_first := enif_make_atom "all_but_first".
Definition a_first := enif_make_atom "first".
Definition a_none := enif_make_atom "none".
Definition a_index := enif_make_atom "index".
Definition a_binary := enif_make_atom "binary".
Definition a_caseless := enif_make_atom "caseless".
Definition a_max_mem := enif_make_atom "max_mem".
Definition a_err_enif_alloc_binary := enif_make_atom "enif_alloc_binary".
Definition a_err_enif_alloc_resource := enif_make_atom "enif_alloc_resource".
Definition a_err_enif_alloc := enif_make_atom "enif_alloc".
Definition a_err_enif_get_atom := enif_make_atom "enif_get_atom".
Definition a_err_enif_get_string := enif_make_atom "enif_get_string".
Definition a_re2_NoError := enif_make_atom "no_error".
Definition a_re2_ErrorInternal := enif_make_atom "internal".
Definition a_re2_ErrorBadEscape := enif_make_atom "bad_escape".
Definition a_re2_ErrorBadCharClass := enif_make_atom "bad_char_class".
Definition a_re2_ErrorBadCharRange := enif_make_atom "bad_char_range".
Definition a_re2_ErrorMissingBracket := enif_make_atom "missing_bracket".
Definition a_re2_ErrorMissingParen := enif_make_atom "missing_paren".
Definition a_re2_ErrorTrailingBackslash := enif_make_atom "trailing_backslash".
Definition a_re2_ErrorRepeatArgument := enif_make_atom "repeat_argument".
Definition a_re2_ErrorRepeatSize := enif_make_atom "repeat_size".
Definition a_re2_ErrorRepeatOp := enif_make_atom "repeat_op".
Definition a_re2_ErrorBadPerlOp := enif_make_atom "bad_perl_op".
Definition a_re2_ErrorBadUTF8 := enif_make_atom "bad_utf8".
Definition a_re2_ErrorBadNamedCapture := enif_make_atom "bad_named_capture".
Definition a_re2_ErrorPatternTooLarge := enif_make_atom "pattern_too_large".

(** Make an error tuple ([error] in the source, a name the engine's
    [RE2::error()] already takes here). *)
Definition error_tuple (err : term) : term := TTuple [a_error; err].

(** Convert RE2 error code to error term. *)
Definition re2error_code (c : ErrorCode) : term :=
  match c with
  | ErrorInternal => a_re2_ErrorInternal
  | ErrorBadEscape => a_re2_ErrorBadEscape
  | ErrorBadCharClass => a_re2_ErrorBadCharClass
  | ErrorBadCharRange => a_re2_ErrorBadCharRange
  | ErrorMissingBracket => a_re2_ErrorMissingBracket
  | ErrorMissingParen => a_re2_ErrorMissingParen
  | ErrorTrailingBackslash => a_re2_ErrorTrailingBackslash
  | ErrorRepeatArgument => a_re2_ErrorRepeatArgument
  | ErrorRepeatSize => a_re2_ErrorRepeatSize
  | ErrorRepeatOp => a_re2_ErrorRepeatOp
  | ErrorBadPerlOp => a_re2_ErrorBadPerlOp
  | ErrorBadUTF8 => a_re2_ErrorBadUTF8
  | ErrorBadNamedCapture => a_re2_ErrorBadNamedCapture
  | ErrorPatternTooLarge => a_re2_ErrorPatternTooLarge
  | ErrorCodeOther _ (* default: *)
  | NoError => a_re2_NoError
  end.

Definition re2error (r : RE2) : term :=
  let code := re2error_code (error_code r) in
  let error := enif_make_string (error r) in
  let error_arg := enif_make_string (error_arg r) in
  TTuple [a_error; TTuple [code; error; error_arg]].

(** [alloc_atom]: the length of the buffer obtained, [None] for [nullptr]. *)
Definition alloc_atom (atom : term) (h : allocator) : option Z * allocator :=
  match enif_get_atom_length atom with
  | None => (None, h)
  | Some atom_len =>
      let atom_len := (atom_len + 1) mod 2 ^ 32 in
      let (got, h') := enif_alloc h in
      (if got then Some atom_len else None, h')
  end.

(** [alloc_str] *)
Definition alloc_str (list : term) (h : allocator) : option Z * allocator :=
  match enif_get_list_length list with
  | None => (None, h)
  | Some list_len =>
      let list_len := (list_len + 1) mod 2 ^ 32 in
      let (got, h') := enif_alloc h in
      (if got then Some list_len else None, h')
  end.

(* ================================================================= *)
(** ** re2:compile *)

(** Options = [ Option ];  Option = caseless | {max_mem, int()}

    [Some] of the updated options for [true], [None] for [false].  The loop
    runs while [enif_get_list_cell] succeeds; the test for the empty list
    that precedes it in the source returns what the loop returns there. *)
Fixpoint parse_compile_options (list : term) (opts : RE2_Options)
  : option RE2_Options :=
  match list with
  | TCons H T =>
      if enif_is_identical H a_caseless then
        parse_compile_options T (set_case_sensitive false opts)
      else
        match H with
        | TTuple tuple =>
            let tuplearity := Z.of_nat (List.length tuple) in
            if tuplearity =? 2 then
              if enif_is_identical (term_at tuple 0) a_max_mem then
                (* {max_mem, int()} *)
                match enif_get_int (term_at tuple 1) with
                | Some max_mem =>
                    parse_compile_options T (set_max_mem max_mem opts)
                | None => None
                end
              else parse_compile_options T opts
            else parse_compile_options T opts
        | _ => None
        end
  | _ => Some opts
  end.

(* ================================================================= *)
(** ** re2:match *)

Inductive value_spec : Type :=
| VS_ALL
| VS_ALL_BUT_FIRST
| VS_FIRST
| VS_NONE
| VS_VLIST.

Inductive capture_type : Type :=
| CT_INDEX
| CT_LIST
| CT_BINARY.

Record matchoptions : Type := mk_matchoptions {
  caseless : bool;
  offset : Z;
  vs : value_spec;
  ct : capture_type;
  vlist : term
}.

(** The constructor of [matchoptions]. *)
Definition matchoptions_init : matchoptions :=
  mk_matchoptions false 0 VS_ALL CT_BINARY (enif_make_list []).

Definition set_caseless (b : bool) (o : matchoptions) : matchoptions :=
  mk_matchoptions b (offset o) (vs o) (ct o) (vlist o).

Definition set_offset (n : Z) (o : matchoptions) : matchoptions :=
  mk_matchoptions (caseless o) n (vs o) (ct o) (vlist o).

Definition set_vs (v : value_spec) (o : matchoptions) : matchoptions :=
  mk_matchoptions (caseless o) (offset o) v (ct o) (vlist o).

Definition set_ct (c : capture_type) (o : matchoptions) : matchoptions :=
  mk_matchoptions (caseless o) (offset o) (vs o) c (vlist o).

Definition set_vlist (l : term) (o : matchoptions) : matchoptions :=
  mk_matchoptions (caseless o) (offset o) (vs o) (ct o) l.

Definition parse_match_capture_options
  (opts : matchoptions) (tuple : list term) (tuplearity : Z) : matchoptions :=
  let '(opts, vs_set) :=
    if enif_is_atom (term_at tuple 1) then
      (* ValueSpec = all | all_but_first | first | none *)
      let opts :=
        if enif_is_identical (term_at tuple 1) a_all then set_vs VS_ALL opts
        else if enif_is_identical (term_at tuple 1) a_all_but_first
             then set_vs VS_ALL_BUT_FIRST opts
        else if enif_is_identical (term_at tuple 1) a_first
             then set_vs VS_FIRST opts
        else if enif_is_identical (term_at tuple 1) a_none
             then set_vs VS_NONE opts
        else opts in
      (opts, true)
    else if negb (enif_is_empty_list (term_at tuple 1)) then
      (* ValueSpec = ValueList *)
      (set_vs VS_VLIST (set_vlist (term_at tuple 1) opts), true)
    else (opts, false) in
  (* Type = index | binary *)
  if (tuplearity =? 3) && vs_set then
    if enif_is_identical (term_at tuple 2) a_index then set_ct CT_INDEX opts
    else if enif_is_identical (term_at tuple 2) a_binary
         then set_ct CT_BINARY opts
    else opts
  else opts.

(** Options = [ Option ];  Option = caseless | {offset, N}
    | {capture, ValueSpec} | {capture, ValueSpec, Type}

    [Some] of the updated options for [true], [None] for [false]. *)
Fixpoint parse_match_options (list : term) (opts : matchoptions)
  : option matchoptions :=
  match list with
  | TCons H T =>
      if enif_is_identical H a_caseless then
        parse_match_options T (set_caseless true opts)
      else
        match H with
        | TTuple tuple =>
            let tuplearity := Z.of_nat (List.length tuple) in
            if (tuplearity =? 2) || (tuplearity =? 3) then
              if enif_is_identical (term_at tuple 0) a_offset then
                match enif_get_int (term_at tuple 1) with
                | Some offset => parse_match_options T (set_offset offset opts)
                | None => None
                end
              else if enif_is_identical (term_at tuple 0) a_capture then
                parse_match_options T
                  (parse_match_capture_options opts tuple tuplearity)
              else parse_match_options T opts
            else parse_match_options T opts
        | _ => None
        end
  | _ => Some opts
  end.

(** Build result for re2:match.  The atom [enif_alloc_binary] is the in-band
    failure marker. *)
Definition mres (str : list byte) (match_ : StringPiece) (ct : capture_type)
  (h : allocator) : term * allocator :=
  match ct with
  | CT_BINARY =>
      let (got, h') := enif_alloc_binary h in
      if got then (TBinary (sp_bytes str match_), h')
      else (a_err_enif_alloc_binary, h')
  | _ =>
      let '(l, r) :=
        if sp_empty match_ then (-1, 0)
        else (to_int (sp_offset match_), to_int (sp_size match_)) in
      (TTuple [enif_make_int l; enif_make_int r], h)
  end.

(** The loop of [re2_match_ret_vlist] over the cells of [opts.vlist], [vec]
    holding the values pushed so far.  It ends at the first term that is not
    a cons cell, and the values pushed become the list of the result. *)
Fixpoint re2_match_ret_vlist_loop
  (r : RE2) (s : list byte) (opts : matchoptions) (group : list StringPiece)
  (n : Z) (VL : term) (vec : list term) (h : allocator)
  : nif_result * allocator :=
  let nmap := NamedCapturingGroups r in
  (* empty StringPiece for unfound ValueIds *)
  let empty := sp_null in
  match VL with
  | TCons VH VT =>
      let '(got_int, nid) :=
        match enif_get_int VH with
        | Some z => (true, z)
        | None => (false, 0)
        end in
      if got_int && (nid >? 0) then
        (* ValueID int() *)
        if nid <? n then
          let match_ := group_at group nid in
          let '(res, h1) :=
            if negb (sp_empty match_)
            then mres s (group_at group nid) (ct opts) h
            else mres s empty (ct opts) h in
          if enif_is_identical res a_err_enif_alloc_binary
          then (Return (error_tuple a_err_enif_alloc_binary), h1)
          else re2_match_ret_vlist_loop r s opts group n VT (vec ++ [res]) h1
        else
          let '(res, h1) := mres s empty (ct opts) h in
          re2_match_ret_vlist_loop r s opts group n VT (vec ++ [res]) h1
      else if enif_is_atom VH then
        (* ValueID atom() *)
        match alloc_atom VH h with
        | (None, h1) => (Return (error_tuple a_err_enif_alloc), h1)
        | (Some atom_len, h1) =>
            let '(written, a_id) := enif_get_atom VH atom_len in
            if written >? 0 then
              let '(res, h2) :=
                match nmap_find nmap (c_str a_id) with
                | Some idx => mres s (group_at group idx) (ct opts) h1
                | None => mres s empty (ct opts) h1
                end in
              if enif_is_identical res a_err_enif_alloc_binary
              then (Return (error_tuple a_err_enif_alloc_binary), h2)
              else re2_match_ret_vlist_loop r s opts group n VT (vec ++ [res]) h2
            else (Return (error_tuple a_err_enif_get_atom), h1)
        end
      else
        (* ValueID string() *)
        match alloc_str VH h with
        | (None, h1) => (Return (error_tuple a_err_enif_alloc), h1)
        | (Some str_len, h1) =>
            let '(written, str_id) := enif_get_string VH str_len in
            if written >? 0 then
              let '(res, h2) :=
                match nmap_find nmap (c_str str_id) with
                | Some idx => mres s (group_at group idx) (ct opts) h1
                | None => mres s empty (ct opts) h1
                end in
              if enif_is_identical res a_err_enif_alloc_binary
              then (Return (error_tuple a_err_enif_alloc_binary), h2)
              else re2_match_ret_vlist_loop r s opts group n VT (vec ++ [res]) h2
            else (Return (error_tuple a_err_enif_get_string), h1)
        end
  | _ =>
      let list := enif_make_list_from_array vec (Z.of_nat (List.length vec)) in
      (Return (TTuple [a_match; list]), h)
  end.

Definition re2_match_ret_vlist
  (r : RE2) (s : list byte) (opts : matchoptions) (group : list StringPiece)
  (n : Z) (h : allocator) : nif_result * allocator :=
  re2_match_ret_vlist_loop r s opts group n (vlist opts) [] h.

(** Get number of capturing groups we want to request from RE2. *)
Definition number_of_capturing_groups (nr_groups : Z) (vs : value_spec) : Z :=
  match vs with
  | VS_NONE => 0
  | VS_FIRST => 1
  | _ => nr_groups
  end.

(** The [for (i = start, arridx = 0; i < n; i++, arridx++)] loop of
    [re2_match_impl], [k] iterations left; [arr] is [None] when the array
    pointer is null, else the cells filled so far. *)
Fixpoint re2_match_fill
  (s : list byte) (ct : capture_type) (group : list StringPiece)
  (k : nat) (i : Z) (arr : option (list term)) (h : allocator)
  : (nif_result + list term) * allocator :=
  match k with
  | O => (inr (match arr with Some a => a | None => [] end), h)
  | S k' =>
      let '(res, h1) := mres s (group_at group i) ct h in
      if enif_is_identical res a_err_enif_alloc_binary
      then (inl (Return (error_tuple a_err_enif_alloc_binary)), h1)
      else
        match arr with
        | None => (inl Segfault, h1)
        | Some a => re2_match_fill s ct group k' (i + 1) (Some (a ++ [res])) h1
        end
  end.

Section Engine.

(** The engine's constructor [re2::RE2(pattern, options)] and the default
    constructed [re2::RE2::Options] belong to the external library. *)
Variable RE2_new : list byte -> RE2_Options -> RE2.
Variable RE2_Options_default : RE2_Options.

Definition re2_compile_impl (argv : list term) (h : allocator)
  : nif_result * allocator :=
  let argc := Z.of_nat (List.length argv) in
  match enif_inspect_iolist_as_binary (term_at argv 0) with
  | Some p =>
      let (got, h1) := enif_alloc_resource h in
      if negb got then (Return (error_tuple a_err_enif_alloc_resource), h1)
      else
        let re2opts := set_log_errors false RE2_Options_default in
        match (if argc =? 2
               then parse_compile_options (term_at argv 1) re2opts
               else Some re2opts) with
        | None => (Badarg, h1)
        | Some re2opts =>
            let (got, h2) := enif_alloc h1 in
            if negb got then (Return (error_tuple a_err_enif_alloc), h2)
            else
              let r := RE2_new p re2opts in
              if negb (ok r) then (Return (re2error r), h2)
              else
                let result := TResource (mk_handle (Some r)) in
                (Return (TTuple [a_ok; result]), h2)
        end
  | None => (Badarg, h)
  end.

(** The part of [re2_match_impl] that follows pattern resolution, with the
    engine's [Match] method as a parameter: [Match startpos n] stands for
    [re->Match(s, startpos, s.size(), RE2::UNANCHORED, group.data(), n)]. *)
Definition re2_match_run_with
  (Match : Z -> Z -> option (list StringPiece))
  (s : list byte) (r : RE2) (opts : matchoptions) (h : allocator)
  : nif_result * allocator :=
  if negb (ok r) then (Badarg, h)
  else
    let nr_groups := to_int (NumberOfCapturingGroups r + 1) in
    let n := number_of_capturing_groups nr_groups (vs opts) in
    match Match (offset opts) n with
    | Some group =>
        match vs opts with
        | VS_NONE =>
            (* return match atom only *)
            (Return a_match, h)
        | VS_FIRST =>
            (* return first match only *)
            let '(first, h1) := mres s (group_at group 0) (ct opts) h in
            if enif_is_identical first a_err_enif_alloc_binary
            then (Return (error_tuple a_err_enif_alloc_binary), h1)
            else (Return (TTuple [a_match; enif_make_list [first]]), h1)
        | VS_VLIST =>
            (* return matched subpatterns as specified in ValueList *)
            re2_match_ret_vlist r s opts group n h
        | _ =>
            (* return all or all_but_first matches *)
            let '(start, arrsz) :=
              match vs opts with
              | VS_ALL_BUT_FIRST => (1, to_int (n - 1))
              | _ => (0, n)
              end in
            let '(got, h1) := enif_alloc h in
            let arr := if got then Some [] else None in
            match re2_match_fill s (ct opts) group
                    (Z.to_nat (n - start)) start arr h1 with
            | (inl res, h2) => (res, h2)
            | (inr arr, h2) =>
                let list := enif_make_list_from_array arr arrsz in
                (Return (TTuple [a_match; list]), h2)
            end
        end
    | None => (Return a_nomatch, h)
    end.

(** The same part, on the engine object's own [Match]. *)
Definition re2_match_run
  (s : list byte) (r : RE2) (opts : matchoptions) (h : allocator)
  : nif_result * allocator :=
  re2_match_run_with (RE2_Match r s) s r opts h.

Definition re2_match_impl (argv : list term) (h : allocator)
  : nif_result * allocator :=
  let argc := Z.of_nat (List.length argv) in
  match enif_inspect_iolist_as_binary (term_at argv 0) with
  | Some s =>
      match (if argc =? 3
             then parse_match_options (term_at argv 2) matchoptions_init
             else Some matchoptions_init) with
      | None => (Badarg, h)
      | Some opts =>
          match enif_get_resource (term_at argv 1) with
          | Some (mk_handle (Some r)) =>
              (* caseless allowed either in compile or match *)
              if caseless opts then (Badarg, h)
              else re2_match_run s r opts h
          | _ =>
              match enif_inspect_iolist_as_binary (term_at argv 1) with
              | Some p =>
                  let re2opts := set_log_errors false RE2_Options_default in
                  let re2opts :=
                    if caseless opts then set_case_sensitive false re2opts
                    else re2opts in
                  let (got, h1) := enif_alloc h in
                  if negb got then (Return (error_tuple a_err_enif_alloc), h1)
                  else re2_match_run s (RE2_new p re2opts) opts h1
              | None => (Badarg, h)
              end
          end
      end
  | None => (Badarg, h)
  end.

(* =============================================================== *)
(** ** re2:replace *)

Record replaceoptions : Type := mk_replaceoptions { global : bool }.

Definition replaceoptions_init : replaceoptions := mk_replaceoptions false.

(** Options = [ Option ];  Option = global *)
Fixpoint parse_replace_options (list : term) (opts : replaceoptions)
  : option replaceoptions :=
  match list with
  | TCons H T =>
      if enif_is_identical H a_global
      then parse_replace_options T (mk_replaceoptions true)
      else None
  | _ => Some opts
  end.

(** Build result for re2:replace. *)
Definition rres (s : list byte) (h : allocator) : term * allocator :=
  let (got, h') := enif_alloc_binary h in
  if got then (TBinary s, h')
  else (error_tuple a_err_enif_alloc_binary, h').

(** The part of [re2_replace_impl] that follows pattern resolution. *)
Definition re2_replace_run
  (argv : list term) (s rewrite : list byte) (r : RE2) (h : allocator)
  : nif_result * allocator :=
  let argc := Z.of_nat (List.length argv) in
  if negb (ok r) then (Badarg, h)
  else
    match (if argc =? 4
           then parse_replace_options (term_at argv 3) replaceoptions_init
           else Some replaceoptions_init) with
    | None => (Badarg, h)
    | Some opts =>
        if global opts then
          let '(count, s') := GlobalReplace r s rewrite in
          if negb (count =? 0)
          then let '(t, h1) := rres s' h in (Return t, h1)
          else (Return a_error, h)
        else
          let '(replaced, s') := Replace r s rewrite in
          if replaced
          then let '(t, h1) := rres s' h in (Return t, h1)
          else (Return a_error, h)
    end.

Definition re2_replace_impl (argv : list term) (h : allocator)
  : nif_result * allocator :=
  match enif_inspect_iolist_as_binary (term_at argv 0),
        enif_inspect_iolist_as_binary (term_at argv 2) with
  | Some s, Some rewrite =>
      match enif_get_resource (term_at argv 1) with
      | Some (mk_handle (Some r)) => re2_replace_run argv s rewrite r h
      | _ =>
          match enif_inspect_iolist_as_binary (term_at argv 1) with
          | Some p =>
              let re2opts := set_log_errors false RE2_Options_default in
              let (got, h1) := enif_alloc h in
              if negb got then (Return (error_tuple a_err_enif_alloc), h1)
              else re2_replace_run argv s rewrite (RE2_new p re2opts) h1
          | None => (Badarg, h)
          end
      end
  | _, _ => (Badarg, h)
  end.

End Engine.

(* ================================================================= *)
(** ** Sample engines

    Concrete [RE2] objects on which the statements below are exercised. *)

Module Sample.

Definition bytes (s : string) : list byte := list_byte_of_string s.

Definition bytes_eqb (a b : list byte) : bool :=
  if list_eq_dec Byte.byte_eq_dec a b then true else false.

(** The object the engine builds for [(?P<year>\d+)-(\d+)], observed on the
    subject ["12-34"]. *)
Definition dash_re : RE2 :=
  {| ok := true;
     error_code := NoError;
     error := [];
     error_arg := [];
     NumberOfCapturingGroups := 2;
     NamedCapturingGroups := [(bytes "year", 1)];
     captures := fun s startpos =>
       if bytes_eqb s (bytes "12-34") && (startpos =? 0)
       then Some [sp_sub 0 5; sp_sub 0 2; sp_sub 3 2]
       else None;
     Replace := fun s _ => (false, s);
     GlobalReplace := fun s _ => (0, s) |}.

(** The object the engine builds for the malformed pattern [(foo]. *)
Definition broken_re : RE2 :=
  {| ok := false;
     error_code := ErrorMissingParen;
     error := bytes "missing ): (foo";
     error_arg := bytes "(foo";
     NumberOfCapturingGroups := -1;
     NamedCapturingGroups := [];
     captures := fun _ _ => None;
     Replace := fun s _ => (false, s);
     GlobalReplace := fun s _ => (0, s) |}.

Fixpoint starts_with (p s : list byte) : bool :=
  match p, s with
  | [], _ => true
  | a :: p', b :: s' => Byte.eqb a b && starts_with p' s'
  | _ :: _, [] => false
  end.

(** Every occurrence of the non-empty literal [p] in [s] that does not
    overlap an earlier one is rewritten to [rw], left to right; without
    [all], only the leftmost one.  [skip] bytes of an occurrence already
    rewritten are still to be dropped, [done] tells that a rewrite took
    place.  Returns the number of rewrites and the text. *)
Fixpoint rewrite_literal
  (all : bool) (p rw s : list byte) (skip : nat) (done : bool)
  : Z * list byte :=
  match s with
  | [] => (0, [])
  | b :: s' =>
      match skip with
      | S k => rewrite_literal all p rw s' k done
      | O =>
          if (all || negb done) && starts_with p s then
            let '(k, out) :=
              rewrite_literal all p rw s' (List.length p - 1) true in
            (k + 1, rw ++ out)
          else
            let '(k, out) := rewrite_literal all p rw s' 0 done in
            (k, b :: out)
      end
  end.

(** A literal pattern, without groups. *)
Definition literal_re (p : list byte) : RE2 :=
  {| ok := true;
     error_code := NoError;
     error := [];
     error_arg := [];
     NumberOfCapturingGroups := 0;
     NamedCapturingGroups := [];
     captures := fun _ _ => None;
     Replace := fun s rw =>
       let '(k, out) := rewrite_literal false p rw s 0 false in (0 <? k, out);
     GlobalReplace := fun s rw => rewrite_literal true p rw s 0 false |}.

Definition RE2_new (p : list byte) (o : RE2_Options) : RE2 :=
  if bytes_eqb p (bytes "(foo") then broken_re
  else if bytes_eqb p (bytes "(?P<year>\d+)-(\d+)") then dash_re
  else literal_re p.

Definition RE2_Options_default : RE2_Options :=
  mkRE2Options true (8 * 2 ^ 20) true.

Definition dash_handle : term := TResource (mk_handle (Some dash_re)).

End Sample.

(* ================================================================= *)
(** ** Releasing a handle *)

(** [cleanup_obj_ptr]: unless the pointer is null, the object's destructor
    runs, its memory is freed and the pointer is set to null.  [destroyed]
    records the objects whose destructor has run, latest first. *)
Definition cleanup_obj_ptr {T : Type} (ptr : option T) (destroyed : list T)
  : option T * list T :=
  match ptr with
  | Some obj => (None, obj :: destroyed)
  | None => (ptr, destroyed)
  end.

Definition cleanup_handle (handle : re2_handle) (destroyed : list RE2)
  : re2_handle * list RE2 :=
  let '(ptr, destroyed) := cleanup_obj_ptr (re handle) destroyed in
  (mk_handle ptr, destroyed).

(** The resource destructor registered by [on_load]. *)
Definition re2_resource_cleanup (arg : re2_handle) (destroyed : list RE2)
  : re2_handle * list RE2 :=
  cleanup_handle arg destroyed.

(* ================================================================= *)
(** ** Vocabulary of the statements *)

(** The entries [parse_compile_options] returns [false] on. *)
Inductive compile_option_rejected : term -> Prop :=
| cor_bare (H : term) :
    H <> a_caseless -> (forall tuple, H <> TTuple tuple) ->
    compile_option_rejected H
| cor_max_mem (x : term) :
    enif_get_int x = None ->
    compile_option_rejected (TTuple [a_max_mem; x]).

(** The entries [parse_match_options] returns [false] on. *)
Inductive match_option_rejected : term -> Prop :=
| mor_bare (H : term) :
    H <> a_caseless -> (forall tuple, H <> TTuple tuple) ->
    match_option_rejected H
| mor_offset (x : term) :
    enif_get_int x = None ->
    match_option_rejected (TTuple [a_offset; x])
| mor_offset3 (x y : term) :
    enif_get_int x = None ->
    match_option_rejected (TTuple [a_offset; x; y]).

(** The entries [parse_replace_options] returns [false] on. *)
Definition replace_option_rejected (H : term) : Prop := H <> a_global.

(** The compile-option grammar as the specification words it: the bare flag
    [caseless], or the pair [{max_mem, N}] with [N] an integer. *)
Definition spec_compile_option (e : term) : bool :=
  match e with
  | TAtom _ => enif_is_identical e a_caseless
  | TTuple [tag; TInt _] => enif_is_identical tag a_max_mem
  | _ => false
  end.

(** The match-option grammar as the specification words it: [caseless],
    [{offset, N}], [{capture, ValueSpec}] or [{capture, ValueSpec, Shape}]. *)
Definition spec_match_option (e : term) : bool :=
  match e with
  | TAtom _ => enif_is_identical e a_caseless
  | TTuple [tag; TInt _] =>
      enif_is_identical tag a_offset || enif_is_identical tag a_capture
  | TTuple [tag; _] => enif_is_identical tag a_capture
  | TTuple [tag; _; _] => enif_is_identical tag a_capture
  | _ => false
  end.

(** The canonical value of an unmatched capture. *)
Definition unmatched (ct : capture_type) : term :=
  match ct with
  | CT_BINARY => TBinary []
  | _ => TTuple [TInt (-1); TInt 0]
  end.

(** A classified ValueSpec as the specification words it: one of the four
    atoms, or a non-empty list. *)
Definition spec_value_spec_classified (ValueSpec : term) : bool :=
  match ValueSpec with
  | TAtom _ =>
      enif_is_identical ValueSpec a_all
      || enif_is_identical ValueSpec a_all_but_first
      || enif_is_identical ValueSpec a_first
      || enif_is_identical ValueSpec a_none
  | TCons _ _ => true
  | _ => false
  end.

(** The capture type after a Shape component has been taken into account. *)
Definition shape_applied (Shape : term) (old : capture_type) : capture_type :=
  if enif_is_identical Shape a_index then CT_INDEX
  else if enif_is_identical Shape a_binary then CT_BINARY
  else old.

(** The value [mres] builds when the allocation succeeds. *)
Definition shaped (str : list byte) (p : StringPiece) (ct : capture_type)
  : term :=
  fst (mres str p ct []).

(** The values of the slots [i], [i + 1], ... , [k] of them. *)
Fixpoint shaped_from
  (str : list byte) (ct : capture_type) (group : list StringPiece)
  (k : nat) (i : Z) : list term :=
  match k with
  | O => []
  | S k' => shaped str (group_at group i) ct
            :: shaped_from str ct group k' (i + 1)
  end.

(** The options [[{offset, N}, {capture, ValueSpec, Shape}]]. *)
Definition capture_options (N : Z) (ValueSpec Shape : term) : term :=
  enif_make_list [TTuple [a_offset; TInt N]; TTuple [a_capture; ValueSpec; Shape]].

(** The pattern argument [pat] of a match or replace call resolves to the
    engine object [r]: it is a handle on [r], or pattern text that the engine
    compiles to [r] under the options of a call without [caseless]. *)
Definition resolves
  (RE2_new : list byte -> RE2_Options -> RE2) (dflt : RE2_Options)
  (pat : term) (r : RE2) : Prop :=
  pat = TResource (mk_handle (Some r))
  \/ exists p, enif_inspect_iolist_as_binary pat = Some p
               /\ r = RE2_new p (set_log_errors false dflt).

(** The host string (list of character codes) spelling [bs]. *)
Definition erl_string (bs : list byte) : term :=
  enif_make_list (map (fun b => TInt (Z.of_N (Byte.to_N b))) bs).

(** What a well-formed reference stands for: a slot of [group], or the
    default piece when it points at nothing.  Numeric references are the
    positive [int]s, names are Latin-1 atoms and strings of bytes. *)
Inductive ref_resolves (r : RE2) (group : list StringPiece) (n : Z)
  : term -> StringPiece -> Prop :=
| rr_int (id : Z) :
    fits_int id = true -> 0 < id < n ->
    ref_resolves r group n (TInt id) (group_at group id)
| rr_int_out_of_range (id : Z) :
    fits_int id = true -> 0 < id -> n <= id ->
    ref_resolves r group n (TInt id) sp_null
| rr_atom (name : list N) (key : list byte) (idx : Z) :
    latin1 name = Some key -> (List.length name <= 255)%nat ->
    nmap_find (NamedCapturingGroups r) (c_str key) = Some idx ->
    ref_resolves r group n (TAtom name) (group_at group idx)
| rr_atom_unknown (name : list N) (key : list byte) :
    latin1 name = Some key -> (List.length name <= 255)%nat ->
    nmap_find (NamedCapturingGroups r) (c_str key) = None ->
    ref_resolves r group n (TAtom name) sp_null
| rr_string (key : list byte) (idx : Z) :
    Z.of_nat (List.length key) < 2 ^ 32 - 1 ->
    nmap_find (NamedCapturingGroups r) (c_str key) = Some idx ->
    ref_resolves r group n (erl_string key) (group_at group idx)
| rr_string_unknown (key : list byte) :
    Z.of_nat (List.length key) < 2 ^ 32 - 1 ->
    nmap_find (NamedCapturingGroups r) (c_str key) = None ->
    ref_resolves r group n (erl_string key) sp_null.

(** One turn of the loop on a reference that stands for [p]: the value of
    [p] is pushed and the loop goes on with the rest of the list. *)
Definition pushes
  (r : RE2) (s : list byte) (opts : matchoptions) (group : list StringPiece)
  (n : Z) (VH : term) (p : StringPiece) : Prop :=
  forall VT vec h,
    never_fails h ->
    exists h',
      never_fails h'
      /\ re2_match_ret_vlist_loop r s opts group n (TCons VH VT) vec h
         = re2_match_ret_vlist_loop r s opts group n VT
             (vec ++ [shaped s p (ct opts)]) h'.

(** References that point at nothing: a number beyond the last slot, or a
    name the pattern does not have. *)
Inductive ref_unresolved (r : RE2) (n : Z) : term -> Prop :=
| ru_int (id : Z) :
    n <= id -> ref_unresolved r n (TInt id)
| ru_atom (name : list N) (key : list byte) :
    latin1 name = Some key ->
    nmap_find (NamedCapturingGroups r) (c_str key) = None ->
    ref_unresolved r n (TAtom name)
| ru_string (key : list byte) :
    nmap_find (NamedCapturingGroups r) (c_str key) = None ->
    ref_unresolved r n (erl_string key).

(** The closed set of codes a compile error carries. *)
Definition re2_error_atoms : list term :=
  [a_re2_NoError; a_re2_ErrorInternal; a_re2_ErrorBadEscape;
   a_re2_ErrorBadCharClass; a_re2_ErrorBadCharRange;
   a_re2_ErrorMissingBracket; a_re2_ErrorMissingParen;
   a_re2_ErrorTrailingBackslash; a_re2_ErrorRepeatArgument;
   a_re2_ErrorRepeatSize; a_re2_ErrorRepeatOp; a_re2_ErrorBadPerlOp;
   a_re2_ErrorBadUTF8; a_re2_ErrorBadNamedCapture;
   a_re2_ErrorPatternTooLarge].

(** An option entry that sets the offset: a pair or a triple tagged
    [offset]. *)
Definition offset_entry (e : term) : bool :=
  match e with
  | TTuple tuple =>
      ((Z.of_nat (List.length tuple) =? 2) || (Z.of_nat (List.length tuple) =? 3))
      && enif_is_identical (term_at tuple 0) a_offset
  | _ => false
  end.

(** A term that is not a cons cell: where [enif_get_list_cell] fails. *)
Definition not_cons (t : term) : Prop := forall hd tl, t <> TCons hd tl.

(** [opts] with the case flag forgotten. *)
Definition capture_plan (opts : matchoptions)
  : Z * value_spec * capture_type * term :=
  (offset opts, vs opts, ct opts, vlist opts).

(** The complete sequence of an ALL ([start] 0) or ALL_BUT_FIRST ([start] 1)
    result for the submatch vector [caps] of the engine object [r]. *)
Definition all_values
  (s : list byte) (r : RE2) (caps : list StringPiece) (ct : capture_type)
  (start : Z) : list term :=
  let n := NumberOfCapturingGroups r + 1 in
  shaped_from s ct (submatch (Z.to_nat n) caps) (Z.to_nat (n - start)) start.

(** An element of a host string that [enif_get_string] accepts: an integer
    in 0..255. *)
Definition byte_item (t : term) : bool :=
  match t with
  | TInt z => is_byte z
  | _ => false
  end.

(** The codes that the switch of [re2error] does not tell apart: [NoError]
    and those under its [default:] label. *)
Definition unnamed_code (c : ErrorCode) : bool :=
  match c with
  | NoError | ErrorCodeOther _ => true
  | _ => false
  end.

(* ================================================================= *)
(** * Properties *)

(** ** C integers *)

Lemma to_int_id (z : Z) : fits_int z = true -> to_int z = z.
Proof.
  unfold fits_int, to_int, INT_MIN, INT_MAX.
  rewrite andb_true_iff, !Z.leb_le. intros [Hlo Hhi].
  rewrite Z.mod_small; lia.
Qed.


(** ** Atoms and lists of terms *)

Lemma names_eqb_eq (a b : list N) : names_eqb a b = true <-> a = b.
Proof.
  revert b. induction a as [|x a IH]; intros [|y b]; simpl;
    try (split; [discriminate | discriminate]); try tauto.
  rewrite andb_true_iff, N.eqb_eq, IH. split.
  - intros [-> ->]. reflexivity.
  - intros E. injection E as -> ->. tauto.
Qed.

Lemma enif_is_identical_atom (t : term) (s : string) :
  enif_is_identical t (enif_make_atom s) = true <-> t = enif_make_atom s.
Proof.
  unfold enif_make_atom. destruct t; simpl; try (split; [discriminate | discriminate]).
  rewrite names_eqb_eq. split; [intros -> | intros E; injection E]; auto.
Qed.

Lemma enif_is_identical_not_atom (t : term) (s : string) :
  enif_is_identical t (enif_make_atom s) = false <-> t <> enif_make_atom s.
Proof.
  rewrite <- enif_is_identical_atom.
  destruct (enif_is_identical t (enif_make_atom s)); split; congruence.
Qed.

Lemma length_two {A} (l : list A) :
  Z.of_nat (List.length l) = 2 -> exists a b, l = [a; b].
Proof.
  destruct l as [|a [|b [|c l]]]; simpl; intros E; try lia. eauto.
Qed.

Lemma length_three {A} (l : list A) :
  Z.of_nat (List.length l) = 3 -> exists a b c, l = [a; b; c].
Proof.
  destruct l as [|a [|b [|c [|d l]]]]; simpl; intros E; try lia. eauto.
Qed.

(** Turns a decided [enif_is_identical] test into an equation on terms. *)
Ltac identical H :=
  first [ apply enif_is_identical_atom in H
        | apply enif_is_identical_not_atom in H ].

(** ** The option parsers *)

Lemma parse_compile_options_fails (es : list term) (o : RE2_Options) :
  parse_compile_options (enif_make_list es) o = None
  <-> Exists compile_option_rejected es.
Proof.
  revert o. induction es as [|e es IH]; intros o; simpl.
  - split; [discriminate | intros E; inversion E].
  - rewrite Exists_cons.
    destruct (enif_is_identical e a_caseless) eqn:Ec; unfold a_caseless in Ec;
      identical Ec.
    + rewrite IH. split; [tauto|].
      intros [R | R]; [|exact R]. exfalso.
      inversion R as [H0 Hc _|x Hx]; subst; [|discriminate].
      apply Hc. reflexivity.
    + destruct e as [n|z| |hd tl|tuple|d|hh|tg];
        try (split; [intros _; left; apply cor_bare; [exact Ec | discriminate]
                    | reflexivity]).
      destruct (Z.of_nat (List.length tuple) =? 2) eqn:Ea.
      * apply Z.eqb_eq, length_two in Ea. destruct Ea as (t0 & t1 & ->).
        cbn [term_at nth].
        destruct (enif_is_identical t0 a_max_mem) eqn:Em;
          unfold a_max_mem in Em; identical Em.
        -- subst t0. destruct (enif_get_int t1) eqn:Ei.
           ++ rewrite IH. split; [tauto|]. intros [R | R]; [|exact R].
              exfalso. inversion R as [H0 _ Hn|x Hx]; subst.
              ** apply (Hn [enif_make_atom "max_mem"; t1]). reflexivity.
              ** congruence.
           ++ split; [|reflexivity]. intros _. left. apply cor_max_mem, Ei.
        -- rewrite IH. split; [tauto|]. intros [R | R]; [|exact R].
           exfalso. inversion R as [H0 _ Hn|x Hx]; subst.
           ++ apply (Hn [t0; t1]). reflexivity.
           ++ apply Em. reflexivity.
      * rewrite IH. split; [tauto|]. intros [R | R]; [|exact R].
        exfalso. inversion R as [H0 _ Hn|x Hx]; subst.
        -- apply (Hn tuple). reflexivity.
        -- discriminate.
Qed.

Lemma parse_match_options_fails (es : list term) (o : matchoptions) :
  parse_match_options (enif_make_list es) o = None
  <-> Exists match_option_rejected es.
Proof.
  revert o. induction es as [|e es IH]; intros o; simpl.
  - split; [discriminate | intros E; inversion E].
  - rewrite Exists_cons.
    assert (Skip : ~ match_option_rejected e ->
                   forall o', parse_match_options (enif_make_list es) o' = None
                              <-> match_option_rejected e
                                  \/ Exists match_option_rejected es).
    { intros N o'. rewrite IH. tauto. }
    destruct (enif_is_identical e a_caseless) eqn:Ec; unfold a_caseless in Ec;
      identical Ec.
    + apply Skip. intros R.
      inversion R as [H0 Hc _|x Hx|x y Hx]; subst; try discriminate.
      apply Hc. reflexivity.
    + destruct e as [n|z| |hd tl|tuple|d|hh|tg];
        try (split; [intros _; left; apply mor_bare; [exact Ec | discriminate]
                    | reflexivity]).
      destruct (Z.of_nat (List.length tuple) =? 2) eqn:E2;
        [|destruct (Z.of_nat (List.length tuple) =? 3) eqn:E3]; cbn [orb].
      * apply Z.eqb_eq, length_two in E2. destruct E2 as (t0 & t1 & ->).
        cbn [term_at nth].
        destruct (enif_is_identical t0 a_offset) eqn:Eo;
          unfold a_offset in Eo; identical Eo.
        -- subst t0. destruct (enif_get_int t1) eqn:Ei.
           ++ apply Skip. intros R.
              inversion R as [H0 _ Hn|x Hx|x y Hx]; subst.
              ** apply (Hn [enif_make_atom "offset"; t1]). reflexivity.
              ** congruence.
           ++ split; [|reflexivity]. intros _. left. apply mor_offset, Ei.
        -- assert (N : ~ match_option_rejected (TTuple [t0; t1])).
           { intros R. inversion R as [H0 _ Hn|x Hx|x y Hx]; subst.
             - apply (Hn [t0; t1]). reflexivity.
             - apply Eo. reflexivity. }
           destruct (enif_is_identical t0 a_capture); apply Skip; exact N.
      * apply Z.eqb_eq, length_three in E3. destruct E3 as (t0 & t1 & t2 & ->).
        cbn [term_at nth].
        destruct (enif_is_identical t0 a_offset) eqn:Eo;
          unfold a_offset in Eo; identical Eo.
        -- subst t0. destruct (enif_get_int t1) eqn:Ei.
           ++ apply Skip. intros R.
              inversion R as [H0 _ Hn|x Hx|x y Hx]; subst.
              ** apply (Hn [enif_make_atom "offset"; t1; t2]). reflexivity.
              ** congruence.
           ++ split; [|reflexivity]. intros _. left. apply mor_offset3, Ei.
        -- assert (N : ~ match_option_rejected (TTuple [t0; t1; t2])).
           { intros R. inversion R as [H0 _ Hn|x Hx|x y Hx]; subst.
             - apply (Hn [t0; t1; t2]). reflexivity.
             - apply Eo. reflexivity. }
           destruct (enif_is_identical t0 a_capture); apply Skip; exact N.
      * apply Skip. intros R.
        inversion R as [H0 _ Hn|x Hx|x y Hx]; subst.
        -- apply (Hn tuple). reflexivity.
        -- discriminate.
        -- discriminate.
Qed.

Lemma parse_replace_options_fails (es : list term) (o : replaceoptions) :
  parse_replace_options (enif_make_list es) o = None
  <-> Exists replace_option_rejected es.
Proof.
  revert o. induction es as [|e es IH]; intros o; simpl.
  - split; [discriminate | intros E; inversion E].
  - rewrite Exists_cons. unfold replace_option_rejected at 1.
    destruct (enif_is_identical e a_global) eqn:Eg; unfold a_global in Eg;
      identical Eg.
    + rewrite IH. unfold a_global. tauto.
    + split; [|reflexivity]. intros _. left. exact Eg.
Qed.

(** C1 (as amended).  On a sequence of entries each parser fails exactly when
    some entry is one it rejects, whatever follows that entry: for compile, an
    entry that is neither [caseless] nor a tuple, or a pair [{max_mem, X}]
    with [X] not an [int]; for match, an entry that is neither [caseless] nor
    a tuple, or [{offset, X}] / [{offset, X, Y}] with [X] not an [int]; for
    replace, any entry but [global].  Every other tuple is passed over.  A
    failed parse surfaces as [badarg]. *)
Theorem C1_parsers_reject (es : list term) :
  (forall o, parse_compile_options (enif_make_list es) o = None
             <-> Exists compile_option_rejected es)
  /\ (forall o, parse_match_options (enif_make_list es) o = None
                <-> Exists match_option_rejected es)
  /\ (forall o, parse_replace_options (enif_make_list es) o = None
                <-> Exists replace_option_rejected es)
  /\ (forall RE2_new dflt pat p h h',
         enif_inspect_iolist_as_binary pat = Some p ->
         enif_alloc_resource h = (true, h') ->
         Exists compile_option_rejected es ->
         fst (re2_compile_impl RE2_new dflt [pat; enif_make_list es] h) = Badarg)
  /\ (forall RE2_new dflt subj s pat h,
         enif_inspect_iolist_as_binary subj = Some s ->
         Exists match_option_rejected es ->
         fst (re2_match_impl RE2_new dflt [subj; pat; enif_make_list es] h)
         = Badarg)
  /\ (forall subj pat tmpl s rw r h,
         Exists replace_option_rejected es ->
         fst (re2_replace_run [subj; pat; tmpl; enif_make_list es] s rw r h)
         = Badarg).
Proof.
  repeat split; try (revert o; first [ apply parse_compile_options_fails
                                     | apply parse_match_options_fails
                                     | apply parse_replace_options_fails ]).
  - intros RE2_new dflt pat p h h' Hp Ha Hr.
    unfold re2_compile_impl. cbn [term_at nth List.length]. rewrite Hp, Ha.
    cbn [negb Z.of_nat Pos.of_succ_nat Pos.succ Z.eqb Pos.eqb].
    apply (parse_compile_options_fails es (set_log_errors false dflt)) in Hr.
    rewrite Hr. reflexivity.
  - intros RE2_new dflt subj s pat h Hs Hr.
    unfold re2_match_impl. cbn [term_at nth List.length]. rewrite Hs.
    cbn [Z.of_nat Pos.of_succ_nat Pos.succ Z.eqb Pos.eqb].
    apply (parse_match_options_fails es matchoptions_init) in Hr.
    rewrite Hr. reflexivity.
  - intros subj pat tmpl s rw r h Hr.
    unfold re2_replace_run. cbn [term_at nth List.length].
    cbn [Z.of_nat Pos.of_succ_nat Pos.succ Z.eqb Pos.eqb].
    apply (parse_replace_options_fails es replaceoptions_init) in Hr.
    rewrite Hr. destruct (negb (ok r)); reflexivity.
Qed.

Lemma C1_parsers_reject_witness :
  parse_match_options
    (enif_make_list [a_caseless; TTuple [a_offset; a_none]; a_caseless])
    matchoptions_init = None
  /\ fst (re2_match_impl Sample.RE2_new Sample.RE2_Options_default
            [TBinary (Sample.bytes "12-34"); Sample.dash_handle;
             enif_make_list [TTuple [a_offset; TInt (2 ^ 31)]]] [])
     = Badarg.
Proof.
  split.
  - apply (C1_parsers_reject
             [a_caseless; TTuple [a_offset; a_none]; a_caseless]).
    right; left. apply mor_offset. reflexivity.
  - apply (proj1 (proj2 (proj2 (proj2 (proj2
             (C1_parsers_reject [TTuple [a_offset; TInt (2 ^ 31)]])))))
             Sample.RE2_new Sample.RE2_Options_default
             (TBinary (Sample.bytes "12-34")) (Sample.bytes "12-34")).
    + reflexivity.
    + left. apply mor_offset. reflexivity.
Defined.

(** C1 as stated fails: the pair [{foo, 1}] is not in the compile grammar and
    the triple [{max_mem, 1, 2}] has the wrong arity, yet compile parsing
    succeeds and leaves the options untouched; [{foo, 1, 2}] is not in the
    match grammar and [{offset, 3, x}] has the wrong arity, yet match parsing
    succeeds, the latter even setting the offset. *)
Lemma C1_counterexample :
  let foo := enif_make_atom "foo" in
  spec_compile_option (TTuple [foo; TInt 1]) = false
  /\ spec_compile_option (TTuple [a_max_mem; TInt 1; TInt 2]) = false
  /\ parse_compile_options
       (enif_make_list [TTuple [foo; TInt 1]; TTuple [a_max_mem; TInt 1; TInt 2]])
       Sample.RE2_Options_default
     = Some Sample.RE2_Options_default
  /\ spec_match_option (TTuple [foo; TInt 1; TInt 2]) = false
  /\ spec_match_option (TTuple [a_offset; TInt 3; foo]) = false
  /\ parse_match_options
       (enif_make_list [TTuple [foo; TInt 1; TInt 2];
                        TTuple [a_offset; TInt 3; foo]])
       matchoptions_init
     = Some (set_offset 3 matchoptions_init).
Proof. repeat split. Qed.

(** ** Capture planning *)

Lemma submatch_length (n : nat) (caps : list StringPiece) :
  List.length (submatch n caps) = n.
Proof.
  revert caps. induction n as [|n IH]; intros caps; simpl; [reflexivity|].
  destruct caps; simpl; rewrite IH; reflexivity.
Qed.

Lemma to_int_succ_groups (G : Z) : 0 <= G < INT_MAX -> to_int (G + 1) = G + 1.
Proof.
  intros HG. apply to_int_id. unfold fits_int, INT_MIN, INT_MAX in *.
  rewrite andb_true_iff, !Z.leb_le. lia.
Qed.

Lemma re2_match_fill_stops
  (s : list byte) (ct : capture_type) (group : list StringPiece) (k : nat) :
  forall i arr h res,
    fst (re2_match_fill s ct group k i arr h) = inl res ->
    res = Return (error_tuple a_err_enif_alloc_binary) \/ res = Segfault.
Proof.
  induction k as [|k IH]; intros i arr h res; cbn [re2_match_fill].
  - discriminate.
  - destruct (mres s (group_at group i) ct h) as [v h1].
    destruct (enif_is_identical v a_err_enif_alloc_binary).
    + intros E. injection E as <-. left. reflexivity.
    + destruct arr as [a|]; [apply IH|].
      intros E. injection E as <-. right. reflexivity.
Qed.

Lemma re2_match_ret_vlist_loop_tuple
  (r : RE2) (s : list byte) (opts : matchoptions) (group : list StringPiece)
  (n : Z) :
  forall VL vec h,
    exists elts,
      fst (re2_match_ret_vlist_loop r s opts group n VL vec h)
      = Return (TTuple elts).
Proof.
  induction VL as [nm|z| |VH _ VT IH|elts|d|hh|tg]; intros vec h;
    try (eexists; reflexivity).
  cbn [re2_match_ret_vlist_loop].
  repeat first
    [ apply IH
    | (eexists; reflexivity)
    | match goal with
      | |- context [match ?x with _ => _ end] =>
          match type of x with
          | sumbool _ _ => fail 1
          | _ => destruct x
          end
      end ].
Qed.

(** C2.  With [G] capturing groups, [re2_match_impl] consults the engine
    with [N] slots and with no other number, [N] being 0 for NONE, 1 for
    FIRST and [G + 1] for ALL, ALL_BUT_FIRST and LIST: whatever the engine's
    [Match] is, the call answers [nomatch] exactly when [Match] fails at
    [N] slots, and its outcome depends on [Match] through its answer at
    [N] slots only.  That many pieces come back on a match. *)
Theorem C2_requested_slots
  (Match : Z -> Z -> option (list StringPiece))
  (s : list byte) (r : RE2) (opts : matchoptions) (h : allocator) :
  let G := NumberOfCapturingGroups r in
  let N := match vs opts with
           | VS_NONE => 0
           | VS_FIRST => 1
           | VS_ALL | VS_ALL_BUT_FIRST | VS_VLIST => G + 1
           end in
  ok r = true ->
  0 <= G < INT_MAX ->
  number_of_capturing_groups (to_int (G + 1)) (vs opts) = N
  /\ (fst (re2_match_run_with Match s r opts h) = Return a_nomatch
      <-> Match (offset opts) N = None)
  /\ (forall Match',
         Match' (offset opts) N = Match (offset opts) N ->
         re2_match_run_with Match' s r opts h
         = re2_match_run_with Match s r opts h)
  /\ (forall RE2_new dflt subject options,
         enif_inspect_iolist_as_binary subject = Some s ->
         parse_match_options options matchoptions_init = Some opts ->
         caseless opts = false ->
         re2_match_impl RE2_new dflt
           [subject; TResource (mk_handle (Some r)); options] h
         = re2_match_run_with (RE2_Match r s) s r opts h)
  /\ (forall group,
         RE2_Match r s (offset opts) N = Some group ->
         Z.of_nat (List.length group) = N).
Proof.
  intros G N Hok HG.
  assert (HN : number_of_capturing_groups (to_int (G + 1)) (vs opts) = N).
  { subst N. destruct (vs opts); simpl; try reflexivity;
      apply to_int_succ_groups, HG. }
  split; [exact HN|]. split; [|split; [|split]].
  - unfold re2_match_run_with. rewrite Hok. cbn [negb]. fold G. rewrite HN.
    destruct (Match (offset opts) N) as [group|]; [|tauto].
    split; [|discriminate]. intros E. exfalso.
    destruct (vs opts) eqn:Ev.
    + destruct (enif_alloc h) as [got h1].
      destruct (re2_match_fill s (ct opts) group (Z.to_nat (N - 0)) 0
                  (if got then Some [] else None) h1) as [[res|arr] h2] eqn:Ef.
      * pose proof (re2_match_fill_stops s (ct opts) group _ _ _ _ res
                      (f_equal fst Ef)) as [-> | ->]; discriminate E.
      * discriminate E.
    + destruct (enif_alloc h) as [got h1].
      destruct (re2_match_fill s (ct opts) group (Z.to_nat (N - 1)) 1
                  (if got then Some [] else None) h1) as [[res|arr] h2] eqn:Ef.
      * pose proof (re2_match_fill_stops s (ct opts) group _ _ _ _ res
                      (f_equal fst Ef)) as [-> | ->]; discriminate E.
      * discriminate E.
    + destruct (mres s (group_at group 0) (ct opts) h) as [first h1].
      destruct (enif_is_identical first a_err_enif_alloc_binary);
        discriminate E.
    + discriminate E.
    + unfold re2_match_ret_vlist in E.
      destruct (re2_match_ret_vlist_loop_tuple r s opts group N
                  (vlist opts) [] h) as [elts Et].
      rewrite Et in E. discriminate E.
  - intros Match' HM. unfold re2_match_run_with. fold G. rewrite HN, HM.
    reflexivity.
  - intros RE2_new dflt subject options Hs Hp Hc. unfold re2_match_impl.
    cbn [List.length Z.of_nat Pos.of_succ_nat Pos.succ Z.eqb Pos.eqb
         term_at nth enif_get_resource].
    rewrite Hs, Hp, Hc. reflexivity.
  - intros group. unfold RE2_Match.
    destruct (captures r s (to_size_t (offset opts))); [|discriminate].
    intros E. injection E as <-. rewrite submatch_length.
    apply Z2Nat.id. subst N. destruct (vs opts); lia.
Qed.

Lemma C2_requested_slots_witness :
  let opts v := mk_matchoptions false 0 v CT_INDEX TNil in
  let s := Sample.bytes "12-34" in
  (* an engine that fails when asked for three slots, and only then *)
  let picky (startpos n : Z) :=
    if n =? 3 then None else RE2_Match Sample.dash_re s startpos n in
  fst (re2_match_run_with picky s Sample.dash_re (opts VS_ALL_BUT_FIRST) [])
  = Return a_nomatch
  /\ fst (re2_match_run_with picky s Sample.dash_re (opts VS_FIRST) [])
     <> Return a_nomatch
  /\ number_of_capturing_groups
       (to_int (NumberOfCapturingGroups Sample.dash_re + 1)) VS_ALL_BUT_FIRST
     = 3.
Proof.
  intros opts s picky.
  assert (HG : 0 <= NumberOfCapturingGroups Sample.dash_re < INT_MAX)
    by (unfold INT_MAX; simpl; lia).
  split; [|split].
  - apply (C2_requested_slots picky s Sample.dash_re (opts VS_ALL_BUT_FIRST) []
             eq_refl HG). reflexivity.
  - intros E.
    apply (C2_requested_slots picky s Sample.dash_re (opts VS_FIRST) []
             eq_refl HG) in E. discriminate E.
  - apply (C2_requested_slots picky s Sample.dash_re (opts VS_ALL_BUT_FIRST) []
             eq_refl HG).
Defined.

(** ** Shaping one capture *)

Lemma mres_empty (str : list byte) (p : StringPiece) (ct : capture_type)
  (h : allocator) :
  sp_empty p = true -> mres str p ct h = mres str sp_null ct h.
Proof.
  intros E. unfold mres. rewrite E. cbn [sp_empty sp_size Z.eqb].
  destruct p as [|pos len]; [reflexivity|].
  unfold sp_empty in E. cbn [sp_size] in E. apply Z.eqb_eq in E. subst len.
  reflexivity.
Qed.

(** C10 (as amended).  An empty slot is shaped as the placeholder: [(-1, 0)]
    in INDEX shape, without any allocation, and the empty binary in BINARY
    shape when its allocation succeeds (the failure marker when it does
    not); so a group that matched the empty string is reported as a group
    that did not take part in the match is.  In INDEX shape the converse
    holds for slots whose size fits an [int]: such a slot is reported as
    [(-1, 0)] only when it is empty. *)
Theorem C10_empty_is_unmatched
  (str : list byte) (p : StringPiece) (ct : capture_type) (h : allocator) :
  (sp_empty p = true ->
   mres str p CT_INDEX h = (TTuple [TInt (-1); TInt 0], h)
   /\ (forall h', enif_alloc_binary h = (true, h') ->
                  mres str p CT_BINARY h = (TBinary [], h'))
   /\ (forall h', enif_alloc_binary h = (false, h') ->
                  mres str p CT_BINARY h = (a_err_enif_alloc_binary, h'))
   /\ mres str p ct h = mres str sp_null ct h)
  /\ (0 <= sp_size p <= INT_MAX ->
      (fst (mres str p CT_INDEX h) = TTuple [TInt (-1); TInt 0]
       <-> sp_empty p = true))
  /\ (forall pos, mres str (sp_sub pos 0) ct h = mres str sp_null ct h).
Proof.
  split; [|split].
  - intros He. split; [|split; [|split]].
    + unfold mres. rewrite He. reflexivity.
    + intros h' Ea. unfold mres. rewrite Ea. f_equal. f_equal.
      destruct p as [|pos len]; [reflexivity|].
      unfold sp_empty in He. cbn [sp_size] in He. apply Z.eqb_eq in He.
      subst len. reflexivity.
    + intros h' Ea. unfold mres. rewrite Ea. reflexivity.
    + apply mres_empty, He.
  - intros Hsz. unfold mres. destruct (sp_empty p) eqn:E; cbn [fst]; [tauto|].
    split; [|discriminate]. intros T. exfalso.
    unfold sp_empty in E. apply Z.eqb_neq in E.
    rewrite (to_int_id (sp_size p)) in T.
    + unfold enif_make_int in T. injection T as _ T. lia.
    + unfold fits_int, INT_MIN, INT_MAX in *.
      rewrite andb_true_iff, !Z.leb_le. lia.
  - intros pos. apply mres_empty. reflexivity.
Qed.

Lemma C10_empty_is_unmatched_witness :
  let str := Sample.bytes "12-34" in
  mres str (sp_sub 2 0) CT_INDEX [false] = (TTuple [TInt (-1); TInt 0], [false])
  /\ mres str (sp_sub 2 0) CT_BINARY [true; false] = (TBinary [], [false])
  /\ mres str (sp_sub 2 0) CT_BINARY [false] = (a_err_enif_alloc_binary, [])
  /\ (fst (mres str (sp_sub 3 2) CT_INDEX []) = TTuple [TInt (-1); TInt 0]
      <-> sp_empty (sp_sub 3 2) = true).
Proof.
  intros str.
  destruct (C10_empty_is_unmatched str (sp_sub 2 0) CT_BINARY [false])
    as [He _].
  destruct (C10_empty_is_unmatched str (sp_sub 2 0) CT_BINARY [true; false])
    as [He' _].
  destruct (He eq_refl) as (Hi & _ & Hf & _).
  destruct (He' eq_refl) as (_ & Hb & _ & _).
  split; [exact Hi|]. split; [apply Hb; reflexivity|].
  split; [apply Hf; reflexivity|].
  apply (C10_empty_is_unmatched str (sp_sub 3 2) CT_INDEX []).
  unfold INT_MAX. simpl. lia.
Defined.

(** C10 as stated fails: a slot of 2^32 bytes that starts 2^32 - 1 bytes
    into the subject is not empty, yet its offset and length, narrowed to
    [int], are -1 and 0, so that INDEX shape reports it as [(-1, 0)]. *)
Lemma C10_counterexample :
  let p := sp_sub (2 ^ 32 - 1) (2 ^ 32) in
  sp_empty p = false
  /\ forall str h,
       fst (mres str p CT_INDEX h) = TTuple [TInt (-1); TInt 0].
Proof. split; reflexivity. Qed.

(** ** The [capture] entry *)

Lemma parse_match_capture_options_ct (opts : matchoptions) (tuple : list term) :
  ct (parse_match_capture_options opts tuple 3)
  = if enif_is_empty_list (term_at tuple 1) then ct opts
    else shape_applied (term_at tuple 2) (ct opts).
Proof.
  unfold parse_match_capture_options, shape_applied.
  destruct (term_at tuple 1) as [n|z| |hd tl|elts|d|hh|tg];
    cbn [enif_is_atom enif_is_empty_list negb Z.eqb Pos.eqb andb];
    try reflexivity;
    try (destruct (enif_is_identical (term_at tuple 2) a_index);
         [reflexivity|];
         destruct (enif_is_identical (term_at tuple 2) a_binary); reflexivity).
  destruct (enif_is_identical (TAtom n) a_all);
    [|destruct (enif_is_identical (TAtom n) a_all_but_first);
      [|destruct (enif_is_identical (TAtom n) a_first);
        [|destruct (enif_is_identical (TAtom n) a_none)]]];
    (destruct (enif_is_identical (term_at tuple 2) a_index);
     [reflexivity|];
     destruct (enif_is_identical (term_at tuple 2) a_binary); reflexivity).
Qed.

Lemma parse_match_capture_options_vs (opts : matchoptions) (tuple : list term)
  (arity : Z) :
  vs (parse_match_capture_options opts tuple arity)
  = let ValueSpec := term_at tuple 1 in
    if enif_is_atom ValueSpec then
      if enif_is_identical ValueSpec a_all then VS_ALL
      else if enif_is_identical ValueSpec a_all_but_first then VS_ALL_BUT_FIRST
      else if enif_is_identical ValueSpec a_first then VS_FIRST
      else if enif_is_identical ValueSpec a_none then VS_NONE
      else vs opts
    else if enif_is_empty_list ValueSpec then vs opts
    else VS_VLIST.
Proof.
  unfold parse_match_capture_options. cbv zeta.
  destruct (enif_is_atom (term_at tuple 1)).
  - destruct (enif_is_identical (term_at tuple 1) a_all);
      [|destruct (enif_is_identical (term_at tuple 1) a_all_but_first);
        [|destruct (enif_is_identical (term_at tuple 1) a_first);
          [|destruct (enif_is_identical (term_at tuple 1) a_none)]]];
      (destruct ((arity =? 3) && true); [|reflexivity];
       destruct (enif_is_identical (term_at tuple 2) a_index);
       [reflexivity|];
       destruct (enif_is_identical (term_at tuple 2) a_binary); reflexivity).
  - destruct (enif_is_empty_list (term_at tuple 1)); cbn [negb];
      (destruct ((arity =? 3) && _); [|reflexivity];
       destruct (enif_is_identical (term_at tuple 2) a_index);
       [reflexivity|];
       destruct (enif_is_identical (term_at tuple 2) a_binary); reflexivity).
Qed.

Lemma parse_match_options_capture3 (opts : matchoptions) (ValueSpec Shape : term) :
  parse_match_options (enif_make_list [TTuple [a_capture; ValueSpec; Shape]]) opts
  = Some (parse_match_capture_options opts [a_capture; ValueSpec; Shape] 3).
Proof. reflexivity. Qed.

(** C4 (as amended).  In a [{capture, ValueSpec, Shape}] entry the Shape
    component is ignored exactly when ValueSpec is the empty list.  For every
    other ValueSpec, an unrecognized atom included, it takes effect; an
    unrecognized atom leaves the value-spec as it was. *)
Theorem C4_shape_gate (opts : matchoptions) (ValueSpec Shape : term) :
  exists opts',
    parse_match_options
      (enif_make_list [TTuple [a_capture; ValueSpec; Shape]]) opts = Some opts'
    /\ (ValueSpec = TNil -> ct opts' = ct opts /\ vs opts' = vs opts)
    /\ (ValueSpec <> TNil -> ct opts' = shape_applied Shape (ct opts))
    /\ (enif_is_atom ValueSpec = true ->
        spec_value_spec_classified ValueSpec = false ->
        vs opts' = vs opts /\ ct opts' = shape_applied Shape (ct opts)).
Proof.
  eexists. split; [apply parse_match_options_capture3|].
  rewrite parse_match_capture_options_ct, parse_match_capture_options_vs.
  cbn [term_at nth]. cbv zeta. repeat split.
  - subst ValueSpec. reflexivity.
  - subst ValueSpec. reflexivity.
  - destruct ValueSpec; try reflexivity. congruence.
  - destruct ValueSpec; try discriminate.
    cbn [spec_value_spec_classified] in H0.
    rewrite !orb_false_iff in H0. destruct H0 as [[[-> ->] ->] ->].
    reflexivity.
  - destruct ValueSpec; try discriminate. reflexivity.
Qed.

Lemma C4_shape_gate_witness :
  exists opts',
    parse_match_options
      (enif_make_list [TTuple [a_capture; enif_make_atom "bogus"; a_index]])
      matchoptions_init = Some opts'
    /\ vs opts' = VS_ALL /\ ct opts' = CT_INDEX.
Proof.
  destruct (C4_shape_gate matchoptions_init (enif_make_atom "bogus") a_index)
    as (opts' & Hp & _ & _ & Ha).
  exists opts'. split; [exact Hp|]. apply Ha; reflexivity.
Defined.

(** C4 as stated fails: [bogus] is not a classified ValueSpec, yet the Shape
    of [{capture, bogus, index}] takes effect; so does that of
    [{capture, 42, index}], where the ValueSpec is neither an atom nor a list
    and is taken for a reference list. *)
Lemma C4_counterexample :
  spec_value_spec_classified (enif_make_atom "bogus") = false
  /\ ct matchoptions_init = CT_BINARY
  /\ option_map ct
       (parse_match_options
          (enif_make_list [TTuple [a_capture; enif_make_atom "bogus"; a_index]])
          matchoptions_init) = Some CT_INDEX
  /\ spec_value_spec_classified (TInt 42) = false
  /\ option_map (fun o => (vs o, ct o))
       (parse_match_options
          (enif_make_list [TTuple [a_capture; TInt 42; a_index]])
          matchoptions_init) = Some (VS_VLIST, CT_INDEX).
Proof. repeat split. Qed.

(** ** Pattern resolution *)

Lemma parse_match_capture_options_caseless
  (opts : matchoptions) (tuple : list term) (arity : Z) :
  caseless (parse_match_capture_options opts tuple arity) = caseless opts.
Proof.
  unfold parse_match_capture_options.
  repeat match goal with
         | |- context [if ?c then _ else _] => destruct c
         end; reflexivity.
Qed.

(** Once set, the caseless flag stays set to the end of the parse. *)
Lemma parse_match_options_caseless_kept (L : term) :
  forall o o',
    parse_match_options L o = Some o' ->
    caseless o = true -> caseless o' = true.
Proof.
  induction L as [n|z| |H _ T IHT|elts|d|hh|tg]; intros o o' Hp Hc;
    try (injection Hp as <-; exact Hc).
  cbn [parse_match_options] in Hp.
  destruct (enif_is_identical H a_caseless).
  - apply (IHT _ _ Hp). reflexivity.
  - destruct H as [n|z| |hd tl|tuple|d|hh|tg]; try discriminate.
    destruct ((Z.of_nat (List.length tuple) =? 2)
              || (Z.of_nat (List.length tuple) =? 3));
      [|apply (IHT _ _ Hp Hc)].
    destruct (enif_is_identical (term_at tuple 0) a_offset).
    + destruct (enif_get_int (term_at tuple 1)); [|discriminate].
      apply (IHT _ _ Hp). exact Hc.
    + destruct (enif_is_identical (term_at tuple 0) a_capture);
        [|apply (IHT _ _ Hp Hc)].
      apply (IHT _ _ Hp). rewrite parse_match_capture_options_caseless.
      exact Hc.
Qed.

Lemma parse_match_options_caseless_set (es : list term) :
  forall o o',
    In a_caseless es ->
    parse_match_options (enif_make_list es) o = Some o' ->
    caseless o' = true.
Proof.
  induction es as [|e es IH]; intros o o' Hin Hp; [destruct Hin|].
  destruct Hin as [-> | Hin].
  - change (parse_match_options (enif_make_list es) (set_caseless true o)
            = Some o') in Hp.
    apply (parse_match_options_caseless_kept _ _ _ Hp). reflexivity.
  - cbn [enif_make_list parse_match_options] in Hp.
    destruct (enif_is_identical e a_caseless); [apply (IH _ _ Hin Hp)|].
    destruct e as [n|z| |hd tl|tuple|d|hh|tg]; try discriminate.
    destruct ((Z.of_nat (List.length tuple) =? 2)
              || (Z.of_nat (List.length tuple) =? 3));
      [|apply (IH _ _ Hin Hp)].
    destruct (enif_is_identical (term_at tuple 0) a_offset).
    + destruct (enif_get_int (term_at tuple 1)); [|discriminate].
      apply (IH _ _ Hin Hp).
    + destruct (enif_is_identical (term_at tuple 0) a_capture);
        apply (IH _ _ Hin Hp).
Qed.

(** C5.  A match call that is given a precompiled handle and options that
    contain [caseless] raises [badarg], whatever the subject, the other
    options and the state of the allocator. *)
Theorem C5_caseless_with_handle
  (RE2_new : list byte -> RE2_Options -> RE2) (dflt : RE2_Options)
  (subject : term) (r : RE2) (es : list term) (h : allocator) :
  In a_caseless es ->
  fst (re2_match_impl RE2_new dflt
         [subject; TResource (mk_handle (Some r)); enif_make_list es] h)
  = Badarg.
Proof.
  intros Hin. unfold re2_match_impl.
  cbn [term_at nth List.length Z.of_nat Pos.of_succ_nat Pos.succ Z.eqb Pos.eqb
       enif_get_resource].
  destruct (enif_inspect_iolist_as_binary subject); [|reflexivity].
  destruct (parse_match_options (enif_make_list es) matchoptions_init)
    as [opts|] eqn:Hp; [|reflexivity].
  rewrite (parse_match_options_caseless_set es _ _ Hin Hp). reflexivity.
Qed.

Lemma C5_caseless_with_handle_witness :
  fst (re2_match_impl Sample.RE2_new Sample.RE2_Options_default
         [TBinary (Sample.bytes "12-34"); Sample.dash_handle;
          enif_make_list [TTuple [a_capture; a_first]; a_caseless]] [])
  = Badarg.
Proof.
  apply (C5_caseless_with_handle Sample.RE2_new Sample.RE2_Options_default
           (TBinary (Sample.bytes "12-34")) Sample.dash_re
           [TTuple [a_capture; a_first]; a_caseless] []).
  simpl. right; left. reflexivity.
Defined.

(** ** Shaping the whole result *)

Lemma never_fails_alloc (h : allocator) :
  never_fails h ->
  exists h', enif_alloc h = (true, h') /\ never_fails h'.
Proof.
  intros Hh. destruct h as [|b h]; simpl.
  - eauto.
  - inversion Hh; subst. eauto.
Qed.

Lemma shaped_not_marker (str : list byte) (p : StringPiece) (ct : capture_type) :
  enif_is_identical (shaped str p ct) a_err_enif_alloc_binary = false.
Proof.
  unfold shaped, mres. destruct ct; cbn [enif_alloc_binary enif_alloc fst];
    try reflexivity; destruct (sp_empty p); reflexivity.
Qed.

Lemma mres_never_fails
  (str : list byte) (p : StringPiece) (ct : capture_type) (h : allocator) :
  never_fails h ->
  exists h', mres str p ct h = (shaped str p ct, h') /\ never_fails h'.
Proof.
  intros Hh. unfold shaped, mres. destruct ct.
  - exists h. split; [destruct (sp_empty p); reflexivity | exact Hh].
  - exists h. split; [destruct (sp_empty p); reflexivity | exact Hh].
  - destruct (never_fails_alloc h Hh) as (h' & Ea & Hh').
    unfold enif_alloc_binary. rewrite Ea. exists h'. split; [reflexivity|exact Hh'].
Qed.

Lemma shaped_unmatched (str : list byte) (ct : capture_type) :
  shaped str sp_null ct = unmatched ct.
Proof. destruct ct; reflexivity. Qed.

Lemma shaped_from_length str ct group k i :
  List.length (shaped_from str ct group k i) = k.
Proof.
  revert i. induction k as [|k IH]; intros i; simpl; [|rewrite IH]; reflexivity.
Qed.

Lemma re2_match_fill_never_fails
  (str : list byte) (ct : capture_type) (group : list StringPiece) (k : nat) :
  forall i a h,
    never_fails h ->
    exists h',
      re2_match_fill str ct group k i (Some a) h
      = (inr (a ++ shaped_from str ct group k i), h')
      /\ never_fails h'.
Proof.
  induction k as [|k IH]; intros i a h Hh; cbn [re2_match_fill shaped_from].
  - exists h. rewrite app_nil_r. split; [reflexivity | exact Hh].
  - destruct (mres_never_fails str (group_at group i) ct h Hh)
      as (h1 & Em & Hh1).
    rewrite Em, shaped_not_marker.
    destruct (IH (i + 1) (a ++ [shaped str (group_at group i) ct]) h1 Hh1)
      as (h2 & Ef & Hh2).
    exists h2. rewrite Ef, <- app_assoc. split; [reflexivity | exact Hh2].
Qed.

Lemma firstn_length_all {A} (l : list A) : firstn (List.length l) l = l.
Proof. apply firstn_all. Qed.

Lemma group_at_submatch_0 (k : nat) (caps : list StringPiece) :
  group_at (submatch (S k) caps) 0 = group_at (submatch 1 caps) 0.
Proof. destruct caps; reflexivity. Qed.

Section MatchRun.

Variables (s : list byte) (r : RE2) (caps : list StringPiece).

Let G := NumberOfCapturingGroups r.

Hypothesis r_ok : ok r = true.
Hypothesis G_range : 0 <= G < INT_MAX.

Let run := re2_match_run s r.

Lemma re2_match_run_all_shapes (start : Z) (opts : matchoptions) (h : allocator) :
  captures r s (to_size_t (offset opts)) = Some caps ->
  never_fails h ->
  (vs opts = VS_ALL /\ start = 0) \/ (vs opts = VS_ALL_BUT_FIRST /\ start = 1) ->
  fst (run opts h)
  = Return (TTuple [a_match;
                    enif_make_list
                      (shaped_from s (ct opts) (submatch (Z.to_nat (G + 1)) caps)
                         (Z.to_nat (G + 1 - start)) start)]).
Proof.
  intros Hc Hh Hv. unfold run, re2_match_run, re2_match_run_with. rewrite r_ok. cbn [negb].
  fold G. rewrite (to_int_succ_groups G G_range).
  assert (En : number_of_capturing_groups (G + 1) (vs opts) = G + 1)
    by (destruct Hv as [[-> _] | [-> _]]; reflexivity).
  rewrite En. unfold RE2_Match. rewrite Hc.
  destruct (never_fails_alloc h Hh) as (h1 & Ea & Hh1).
  assert (Es : (match vs opts with
                | VS_ALL_BUT_FIRST => (1, to_int (G + 1 - 1))
                | _ => (0, G + 1)
                end) = (start, G + 1 - start)).
  { destruct Hv as [[-> ->] | [-> ->]].
    - f_equal. lia.
    - f_equal. replace (G + 1 - 1) with G by lia. apply to_int_id.
      unfold fits_int, INT_MIN, INT_MAX in *.
      rewrite andb_true_iff, !Z.leb_le. lia. }
  destruct (re2_match_fill_never_fails s (ct opts)
              (submatch (Z.to_nat (G + 1)) caps) (Z.to_nat (G + 1 - start))
              start [] h1 Hh1) as (h2 & Ef & _).
  rewrite Es.
  destruct Hv as [[Ev _] | [Ev _]]; rewrite Ev; rewrite Ea, Ef;
    cbn [fst app]; unfold enif_make_list_from_array;
    rewrite <- (shaped_from_length s (ct opts)
                  (submatch (Z.to_nat (G + 1)) caps)
                  (Z.to_nat (G + 1 - start)) start) at 1;
    rewrite firstn_length_all; reflexivity.
Qed.

Lemma re2_match_run_first (opts : matchoptions) (h : allocator) :
  captures r s (to_size_t (offset opts)) = Some caps ->
  never_fails h ->
  vs opts = VS_FIRST ->
  fst (run opts h)
  = Return (TTuple [a_match;
                    enif_make_list
                      [shaped s (group_at (submatch 1 caps) 0) (ct opts)]]).
Proof.
  intros Hc Hh Hv. unfold run, re2_match_run, re2_match_run_with. rewrite r_ok, Hv. cbn [negb].
  cbn [number_of_capturing_groups]. unfold RE2_Match. rewrite Hc.
  change (Z.to_nat 1) with 1%nat.
  destruct (mres_never_fails s (group_at (submatch 1 caps) 0) (ct opts) h Hh)
    as (h1 & Em & _).
  rewrite Em, shaped_not_marker. reflexivity.
Qed.

End MatchRun.

Lemma parse_match_capture_options_offset
  (opts : matchoptions) (tuple : list term) (arity : Z) :
  offset (parse_match_capture_options opts tuple arity) = offset opts.
Proof.
  unfold parse_match_capture_options.
  repeat match goal with
         | |- context [if ?c then _ else _] => destruct c
         end; reflexivity.
Qed.

Lemma parse_capture_options (N : Z) (ValueSpec Shape : term) :
  fits_int N = true ->
  exists opts,
    parse_match_options (capture_options N ValueSpec Shape) matchoptions_init
    = Some opts
    /\ opts = parse_match_capture_options (set_offset N matchoptions_init)
                [a_capture; ValueSpec; Shape] 3.
Proof.
  intros HN. eexists. split; [|reflexivity].
  unfold capture_options. cbn [enif_make_list].
  change (parse_match_options
            (TCons (TTuple [a_offset; TInt N])
               (TCons (TTuple [a_capture; ValueSpec; Shape]) TNil))
            matchoptions_init)
    with (match enif_get_int (TInt N) with
          | Some offset =>
              parse_match_options
                (TCons (TTuple [a_capture; ValueSpec; Shape]) TNil)
                (set_offset offset matchoptions_init)
          | None => None
          end).
  cbn [enif_get_int]. rewrite HN. reflexivity.
Qed.

Lemma re2_match_impl_resolved
  (RE2_new : list byte -> RE2_Options -> RE2) (dflt : RE2_Options)
  (subject pat options : term) (s : list byte) (r : RE2)
  (opts : matchoptions) (h : allocator) :
  enif_inspect_iolist_as_binary subject = Some s ->
  parse_match_options options matchoptions_init = Some opts ->
  caseless opts = false ->
  resolves RE2_new dflt pat r ->
  never_fails h ->
  exists h',
    never_fails h'
    /\ re2_match_impl RE2_new dflt [subject; pat; options] h
       = re2_match_run s r opts h'.
Proof.
  intros Hs Hp Hc Hr Hh. unfold re2_match_impl.
  cbn [term_at nth List.length Z.of_nat Pos.of_succ_nat Pos.succ Z.eqb Pos.eqb].
  rewrite Hs, Hp. destruct Hr as [-> | (p & Hpat & ->)].
  - cbn [enif_get_resource]. rewrite Hc. exists h. split; [exact Hh|reflexivity].
  - assert (Eg : match enif_get_resource pat with
                 | Some (mk_handle (Some _)) => False
                 | _ => True
                 end).
    { destruct pat; try exact I. discriminate. }
    destruct (never_fails_alloc h Hh) as (h1 & Ea & Hh1). exists h1.
    split; [exact Hh1|].
    destruct (enif_get_resource pat) as [[[r'|]]|]; try contradiction;
      rewrite Hpat, Hc, Ea; reflexivity.
Qed.

(** C6.  When the engine finds a match, the FIRST value-spec returns the
    one-element sequence made of element 0 of what ALL returns, and
    ALL_BUT_FIRST returns the ALL sequence without its first element, for the
    same subject, pattern, offset and shape. *)
Theorem C6_first_and_tail
  (RE2_new : list byte -> RE2_Options -> RE2) (dflt : RE2_Options)
  (subject pat Shape : term) (s : list byte) (r : RE2) (N : Z)
  (caps : list StringPiece) (h : allocator) :
  let call ValueSpec :=
    fst (re2_match_impl RE2_new dflt
           [subject; pat; capture_options N ValueSpec Shape] h) in
  enif_inspect_iolist_as_binary subject = Some s ->
  resolves RE2_new dflt pat r ->
  ok r = true ->
  0 <= NumberOfCapturingGroups r < INT_MAX ->
  fits_int N = true ->
  captures r s (to_size_t N) = Some caps ->
  never_fails h ->
  exists x tl,
    call a_all = Return (TTuple [a_match; enif_make_list (x :: tl)])
    /\ call a_first = Return (TTuple [a_match; enif_make_list [x]])
    /\ call a_all_but_first = Return (TTuple [a_match; enif_make_list tl]).
Proof.
  intros call Hs Hr Hok HG HN Hc Hh.
  set (G := NumberOfCapturingGroups r) in *.
  set (c := shape_applied Shape CT_BINARY).
  exists (shaped s (group_at (submatch 1 caps) 0) c),
         (shaped_from s c (submatch (Z.to_nat (G + 1)) caps) (Z.to_nat G) 1).
  assert (Hopts : forall V v,
             enif_is_atom V = true ->
             enif_is_empty_list V = false ->
             vs (parse_match_capture_options (set_offset N matchoptions_init)
                   [a_capture; V; Shape] 3) = v ->
             exists opts h',
               never_fails h'
               /\ call V = fst (re2_match_run s r opts h')
               /\ vs opts = v /\ ct opts = c /\ offset opts = N).
  { intros V v Hatom Hne Hv.
    destruct (parse_capture_options N V Shape HN) as (opts & Hp & Eo).
    assert (Hcl : caseless opts = false)
      by (rewrite Eo, parse_match_capture_options_caseless; reflexivity).
    destruct (re2_match_impl_resolved RE2_new dflt subject pat
                (capture_options N V Shape) s r opts h Hs Hp Hcl Hr Hh)
      as (h' & Hh' & Ei).
    exists opts, h'. unfold call. rewrite Ei. repeat split; try assumption.
    - rewrite Eo. exact Hv.
    - rewrite Eo, parse_match_capture_options_ct. cbn [term_at nth].
      rewrite Hne. reflexivity.
    - rewrite Eo, parse_match_capture_options_offset. reflexivity. }
  assert (E1 : Z.to_nat (G + 1 - 0) = S (Z.to_nat G))
    by (rewrite <- Z2Nat.inj_succ by lia; f_equal; lia).
  assert (E2 : Z.to_nat (G + 1) = S (Z.to_nat G))
    by (rewrite <- Z2Nat.inj_succ by lia; f_equal; lia).
  assert (Hvs : forall V,
             vs (parse_match_capture_options (set_offset N matchoptions_init)
                   [a_capture; V; Shape] 3)
             = vs (parse_match_capture_options matchoptions_init
                     [a_capture; V; TNil] 2))
    by (intros V; rewrite !parse_match_capture_options_vs; reflexivity).
  split; [|split].
  - destruct (Hopts a_all VS_ALL eq_refl eq_refl (Hvs a_all))
      as (opts & h' & Hh' & Ecall & Hv & Hct & Hoff).
    rewrite <- Hoff in Hc. rewrite Ecall.
    rewrite (re2_match_run_all_shapes s r caps Hok HG 0 opts h' Hc Hh')
      by (left; split; [exact Hv | reflexivity]).
    rewrite Hct. fold G. rewrite E1. cbn [shaped_from].
    rewrite E2 at 1. rewrite group_at_submatch_0. reflexivity.
  - destruct (Hopts a_first VS_FIRST eq_refl eq_refl (Hvs a_first))
      as (opts & h' & Hh' & Ecall & Hv & Hct & Hoff).
    rewrite <- Hoff in Hc. rewrite Ecall.
    rewrite (re2_match_run_first s r caps Hok opts h' Hc Hh' Hv), Hct.
    reflexivity.
  - destruct (Hopts a_all_but_first VS_ALL_BUT_FIRST eq_refl eq_refl
                (Hvs a_all_but_first))
      as (opts & h' & Hh' & Ecall & Hv & Hct & Hoff).
    rewrite <- Hoff in Hc. rewrite Ecall.
    rewrite (re2_match_run_all_shapes s r caps Hok HG 1 opts h' Hc Hh')
      by (right; split; [exact Hv | reflexivity]).
    rewrite Hct. fold G. replace (G + 1 - 1) with G by lia. reflexivity.
Qed.

Lemma C6_first_and_tail_witness :
  let call ValueSpec :=
    fst (re2_match_impl Sample.RE2_new Sample.RE2_Options_default
           [TBinary (Sample.bytes "12-34"); Sample.dash_handle;
            capture_options 0 ValueSpec a_index] []) in
  exists x tl,
    call a_all = Return (TTuple [a_match; enif_make_list (x :: tl)])
    /\ call a_first = Return (TTuple [a_match; enif_make_list [x]])
    /\ call a_all_but_first = Return (TTuple [a_match; enif_make_list tl]).
Proof.
  apply (C6_first_and_tail Sample.RE2_new Sample.RE2_Options_default
           (TBinary (Sample.bytes "12-34")) Sample.dash_handle a_index
           (Sample.bytes "12-34") Sample.dash_re 0
           [sp_sub 0 5; sp_sub 0 2; sp_sub 3 2] []).
  - reflexivity.
  - left. reflexivity.
  - reflexivity.
  - unfold INT_MAX. simpl. lia.
  - reflexivity.
  - reflexivity.
  - constructor.
Defined.

(** ** Resolving a reference list *)

Lemma is_byte_to_N (b : byte) : is_byte (Z.of_N (Byte.to_N b)) = true.
Proof.
  unfold is_byte. pose proof (Byte.to_N_bounded b) as Hb.
  rewrite andb_true_iff, Z.leb_le, Z.ltb_lt. lia.
Qed.

Lemma enif_get_list_length_string (bs : list byte) :
  enif_get_list_length (erl_string bs) = Some (Z.of_nat (List.length bs)).
Proof.
  unfold erl_string. induction bs as [|b bs IH]; [reflexivity|].
  cbn [map enif_make_list enif_get_list_length List.length]. rewrite IH.
  f_equal. lia.
Qed.

Lemma enif_get_string_from_string (bs : list byte) :
  forall len n acc,
    n + Z.of_nat (List.length bs) < len ->
    enif_get_string_from (erl_string bs) len n acc
    = (n + Z.of_nat (List.length bs) + 1, acc ++ bs).
Proof.
  unfold erl_string.
  induction bs as [|b bs IH]; intros len n acc Hlen;
    cbn [map enif_make_list enif_get_string_from List.length] in *.
  - rewrite app_nil_r. f_equal. lia.
  - rewrite is_byte_to_N, N2Z.id, Byte.of_to_N.
    destruct (n + 1 >=? len) eqn:E; [apply Z.geb_le in E; lia|].
    rewrite IH by lia. rewrite <- app_assoc. f_equal. lia.
Qed.

Lemma latin1_length (name : list N) (bs : list byte) :
  latin1 name = Some bs -> List.length bs = List.length name.
Proof.
  revert bs. induction name as [|c name IH]; intros bs; simpl.
  - intros E. injection E as <-. reflexivity.
  - destruct (Byte.of_N c); [|discriminate].
    destruct (latin1 name) as [bs'|]; [|discriminate].
    intros E. injection E as <-. simpl. f_equal. apply IH. reflexivity.
Qed.

Lemma unmatched_not_marker (ct : capture_type) :
  enif_is_identical (unmatched ct) a_err_enif_alloc_binary = false.
Proof. destruct ct; reflexivity. Qed.

Section ReferenceList.

Variables (r : RE2) (s : list byte) (opts : matchoptions).
Variables (group : list StringPiece) (n : Z).

Let loop := re2_match_ret_vlist_loop r s opts group n.
Let nmap := NamedCapturingGroups r.

Lemma vlist_name_value (found : option Z) (h : allocator) :
  never_fails h ->
  exists h',
    match found with
    | Some idx => mres s (group_at group idx) (ct opts) h
    | None => mres s sp_null (ct opts) h
    end
    = (shaped s (match found with
                 | Some idx => group_at group idx
                 | None => sp_null
                 end) (ct opts), h')
    /\ never_fails h'.
Proof.
  intros Hh. destruct found as [idx|]; apply mres_never_fails, Hh.
Qed.

Lemma vlist_int (id : Z) :
  fits_int id = true -> 0 < id ->
  pushes r s opts group n (TInt id) (if id <? n then group_at group id else sp_null).
Proof.
  intros Hfit Hpos VT vec h Hh. unfold loop.
  cbn [re2_match_ret_vlist_loop enif_get_int]. rewrite Hfit.
  destruct (Z.gtb_spec id 0) as [_|E1]; [|lia]. cbn [andb].
  destruct (id <? n).
  - assert (Em : (if negb (sp_empty (group_at group id))
                  then mres s (group_at group id) (ct opts) h
                  else mres s sp_null (ct opts) h)
                 = mres s (group_at group id) (ct opts) h).
    { destruct (sp_empty (group_at group id)) eqn:Ee; [|reflexivity].
      symmetry. apply mres_empty, Ee. }
    rewrite Em.
    destruct (mres_never_fails s (group_at group id) (ct opts) h Hh)
      as (h' & Em' & Hh').
    rewrite Em', shaped_not_marker. exists h'. split; [exact Hh'|reflexivity].
  - destruct (mres_never_fails s sp_null (ct opts) h Hh) as (h' & Em & Hh').
    rewrite Em. exists h'. split; [exact Hh'|reflexivity].
Qed.

Lemma vlist_atom (name : list N) (key : list byte) :
  latin1 name = Some key ->
  (List.length name <= 255)%nat ->
  pushes r s opts group n (TAtom name)
    (match nmap_find nmap (c_str key) with
     | Some idx => group_at group idx
     | None => sp_null
     end).
Proof.
  intros Hl Hlen VT vec h Hh. unfold loop.
  cbn [re2_match_ret_vlist_loop enif_get_int andb enif_is_atom].
  unfold alloc_atom. cbn [enif_get_atom_length enif_get_atom]. rewrite Hl.
  destruct (never_fails_alloc h Hh) as (h1 & Ea & Hh1). rewrite Ea.
  pose proof (latin1_length name key Hl) as Ek.
  rewrite Z.mod_small by lia.
  destruct (Z.ltb_spec (Z.of_nat (List.length key))
              (Z.of_nat (List.length key) + 1)) as [_|]; [|lia].
  destruct (Z.gtb_spec (Z.of_nat (List.length key) + 1) 0) as [_|]; [|lia].
  fold nmap.
  destruct (vlist_name_value (nmap_find nmap (c_str key)) h1 Hh1)
    as (h2 & Em & Hh2).
  rewrite Em, shaped_not_marker. exists h2. split; [exact Hh2|reflexivity].
Qed.

Lemma vlist_string (key : list byte) :
  Z.of_nat (List.length key) < 2 ^ 32 - 1 ->
  pushes r s opts group n (erl_string key)
    (match nmap_find nmap (c_str key) with
     | Some idx => group_at group idx
     | None => sp_null
     end).
Proof.
  intros Hlen VT vec h Hh. unfold loop.
  cbn [re2_match_ret_vlist_loop].
  assert (Ei : enif_get_int (erl_string key) = None)
    by (destruct key; reflexivity).
  assert (Et : enif_is_atom (erl_string key) = false)
    by (destruct key; reflexivity).
  rewrite Ei, Et. cbn [andb].
  unfold alloc_str. rewrite enif_get_list_length_string.
  destruct (never_fails_alloc h Hh) as (h1 & Ea & Hh1). rewrite Ea.
  rewrite Z.mod_small by lia.
  unfold enif_get_string.
  destruct (Z.ltb_spec (Z.of_nat (List.length key) + 1) 1) as [|_]; [lia|].
  rewrite enif_get_string_from_string by lia. cbn [app].
  destruct (Z.gtb_spec (0 + Z.of_nat (List.length key) + 1) 0) as [_|]; [|lia].
  fold nmap.
  destruct (vlist_name_value (nmap_find nmap (c_str key)) h1 Hh1)
    as (h2 & Em & Hh2).
  rewrite Em, shaped_not_marker. exists h2. split; [exact Hh2|reflexivity].
Qed.

Lemma ref_resolves_pushes (VH : term) (p : StringPiece) :
  ref_resolves r group n VH p -> pushes r s opts group n VH p.
Proof.
  intros [id Hfit Hid|id Hfit Hpos Hn|name key idx Hl Hlen Hf
         |name key Hl Hlen Hf|key idx Hlen Hf|key Hlen Hf].
  - pose proof (vlist_int id Hfit (proj1 Hid)) as P.
    destruct (Z.ltb_spec id n); [exact P|lia].
  - pose proof (vlist_int id Hfit Hpos) as P.
    destruct (Z.ltb_spec id n); [lia|exact P].
  - pose proof (vlist_atom name key Hl Hlen) as P. unfold nmap in P.
  rewrite Hf in P. exact P.
  - pose proof (vlist_atom name key Hl Hlen) as P. unfold nmap in P.
  rewrite Hf in P. exact P.
  - pose proof (vlist_string key Hlen) as P. unfold nmap in P.
  rewrite Hf in P. exact P.
  - pose proof (vlist_string key Hlen) as P. unfold nmap in P.
  rewrite Hf in P. exact P.
Qed.

(** An integer that is not a positive [int] is taken for a string; it has
    no list length, and the resolution stops with [{error, enif_alloc}]. *)
Lemma vlist_int_not_positive (id : Z) (VT : term) (vec : list term)
  (h : allocator) :
  id <= 0 \/ fits_int id = false ->
  loop (TCons (TInt id) VT) vec h
  = (Return (error_tuple a_err_enif_alloc), h).
Proof.
  intros Hid. unfold loop.
  cbn [re2_match_ret_vlist_loop enif_get_int].
  assert (E : (let '(got_int, nid) :=
                 match (if fits_int id then Some id else None) with
                 | Some z => (true, z)
                 | None => (false, 0)
                 end in got_int && (nid >? 0)) = false).
  { destruct (fits_int id); [|reflexivity].
    destruct Hid as [Hid|]; [|discriminate].
    cbn [andb]. destruct (Z.gtb_spec id 0); [lia|reflexivity]. }
  destruct (fits_int id); cbn [andb] in *; [rewrite E|]; reflexivity.
Qed.

(** Resolution of a list of well-formed references: one value each, in the
    order of the references. *)
Lemma vlist_resolved (refs : list term) (pieces : list StringPiece) :
  Forall2 (ref_resolves r group n) refs pieces ->
  forall VT vec h,
    never_fails h ->
    exists h',
      never_fails h'
      /\ loop (fold_right TCons VT refs) vec h
         = loop VT (vec ++ map (fun p => shaped s p (ct opts)) pieces) h'.
Proof.
  unfold loop.
  induction 1 as [|VH p refs pieces Hr _ IH]; intros VT vec h Hh.
  - exists h. cbn [fold_right map]. rewrite app_nil_r.
    split; [exact Hh|reflexivity].
  - cbn [fold_right map].
    destruct (ref_resolves_pushes VH p Hr (fold_right TCons VT refs) vec h Hh)
      as (h1 & Hh1 & E1).
    destruct (IH VT (vec ++ [shaped s p (ct opts)]) h1 Hh1) as (h2 & Hh2 & E2).
    exists h2. rewrite E1, E2, <- app_assoc. split; [exact Hh2|reflexivity].
Qed.

End ReferenceList.

Lemma erl_string_inj (a b : list byte) : erl_string a = erl_string b -> a = b.
Proof.
  unfold erl_string. revert b.
  induction a as [|x a IH]; intros [|y b]; cbn [map enif_make_list];
    intros E; try discriminate; [reflexivity|].
  injection E as Ex Er. apply N2Z.inj in Ex.
  assert (Some x = Some y) as Exy
    by (rewrite <- (Byte.of_to_N x), <- (Byte.of_to_N y), Ex; reflexivity).
  injection Exy as ->. f_equal. apply IH, Er.
Qed.

Lemma erl_string_not_int (key : list byte) (z : Z) : erl_string key <> TInt z.
Proof. destruct key; discriminate. Qed.

Lemma erl_string_not_atom (key : list byte) (name : list N) :
  erl_string key <> TAtom name.
Proof. destruct key; discriminate. Qed.

Lemma ref_resolves_unresolved
  (r : RE2) (group : list StringPiece) (n : Z) (VH : term) (p : StringPiece) :
  ref_resolves r group n VH p -> ref_unresolved r n VH -> p = sp_null.
Proof.
  intros Hr Hu.
  destruct Hr as [id Hfit Hid|id Hfit Hpos Hn|name key idx Hl Hlen Hf
                 |name key Hl Hlen Hf|key idx Hlen Hf|key Hlen Hf];
    try reflexivity; exfalso.
  - inversion Hu as [id' Hn E|name key Hl Hf E|key Hf E].
    + lia.
    + apply (erl_string_not_int key id). exact E.
  - inversion Hu as [id' Hn E|name' key' Hl' Hf' E|key' Hf' E].
    + subst name'. rewrite Hl in Hl'. injection Hl' as <-. congruence.
    + apply (erl_string_not_atom key' name). exact E.
  - remember (erl_string key) as VH eqn:EVH.
    destruct Hu as [id' Hn|name' key' Hl' Hf'|key' Hf'].
    + apply (erl_string_not_int key id'). symmetry. exact EVH.
    + apply (erl_string_not_atom key name'). symmetry. exact EVH.
    + apply erl_string_inj in EVH. subst key'. congruence.
Qed.

Lemma Forall2_nth_error_l {A B} (R : A -> B -> Prop) (la : list A) (lb : list B) :
  Forall2 R la lb ->
  forall i a, nth_error la i = Some a ->
              exists b, nth_error lb i = Some b /\ R a b.
Proof.
  induction 1 as [|x y la lb Hxy _ IH]; intros [|i] a E; try discriminate.
  - injection E as <-. exists y. split; [reflexivity|exact Hxy].
  - apply (IH i a E).
Qed.

Lemma enif_make_list_fold (l : list term) (tl : list term) :
  enif_make_list (l ++ tl) = fold_right TCons (enif_make_list tl) l.
Proof. induction l as [|x l IH]; simpl; [|rewrite IH]; reflexivity. Qed.

Lemma re2_match_ret_vlist_loop_end
  (r : RE2) (s : list byte) (opts : matchoptions) (group : list StringPiece)
  (n : Z) (vec : list term) (h : allocator) :
  re2_match_ret_vlist_loop r s opts group n TNil vec h
  = (Return (TTuple [a_match; enif_make_list vec]), h).
Proof.
  cbn [re2_match_ret_vlist_loop]. unfold enif_make_list_from_array.
  rewrite Nat2Z.id, firstn_all. reflexivity.
Qed.

Lemma re2_match_run_vlist
  (s : list byte) (r : RE2) (opts : matchoptions) (caps : list StringPiece)
  (h : allocator) :
  ok r = true ->
  0 <= NumberOfCapturingGroups r < INT_MAX ->
  vs opts = VS_VLIST ->
  captures r s (to_size_t (offset opts)) = Some caps ->
  re2_match_run s r opts h
  = re2_match_ret_vlist_loop r s opts
      (submatch (Z.to_nat (NumberOfCapturingGroups r + 1)) caps)
      (NumberOfCapturingGroups r + 1) (vlist opts) [] h.
Proof.
  intros Hok HG Hv Hc. unfold re2_match_run, re2_match_run_with.
  rewrite Hok, Hv. cbn [negb number_of_capturing_groups].
  rewrite (to_int_succ_groups _ HG). unfold RE2_Match. rewrite Hc.
  reflexivity.
Qed.

(** C3 (as amended).  In a match call with a reference LIST whose match
    succeeds and whose allocations succeed: when every reference is a
    well-formed one (a positive [int], a Latin-1 atom or a string of bytes),
    the call returns one value per reference, and the value at the position
    of a number beyond the last slot or of an unknown name is the unmatched
    placeholder; when the first reference that is not well-formed is an
    integer that is zero, negative or outside the range of [int], the call
    fails with [{error, enif_alloc}]. *)
Theorem C3_reference_list
  (s : list byte) (r : RE2) (opts : matchoptions) (caps : list StringPiece)
  (refs : list term) (h : allocator) :
  let n := NumberOfCapturingGroups r + 1 in
  let group := submatch (Z.to_nat n) caps in
  ok r = true ->
  0 <= NumberOfCapturingGroups r < INT_MAX ->
  vs opts = VS_VLIST ->
  vlist opts = enif_make_list refs ->
  captures r s (to_size_t (offset opts)) = Some caps ->
  never_fails h ->
  (forall pieces,
      Forall2 (ref_resolves r group n) refs pieces ->
      exists L,
        fst (re2_match_run s r opts h)
        = Return (TTuple [a_match; enif_make_list L])
        /\ List.length L = List.length refs
        /\ forall i VH,
             nth_error refs i = Some VH ->
             ref_unresolved r n VH ->
             nth_error L i = Some (unmatched (ct opts)))
  /\ (forall pre id post pieces,
         refs = pre ++ TInt id :: post ->
         Forall2 (ref_resolves r group n) pre pieces ->
         id <= 0 \/ fits_int id = false ->
         fst (re2_match_run s r opts h)
         = Return (error_tuple a_err_enif_alloc)).
Proof.
  intros n group Hok HG Hv Hl Hc Hh.
  rewrite (re2_match_run_vlist s r opts caps h Hok HG Hv Hc), Hl.
  fold n. fold group. split.
  - intros pieces HF.
    exists (map (fun p => shaped s p (ct opts)) pieces).
    destruct (vlist_resolved r s opts group n refs pieces HF TNil [] h Hh)
      as (h' & _ & E).
    rewrite <- (app_nil_r refs), enif_make_list_fold. cbn [enif_make_list].
    rewrite E, re2_match_ret_vlist_loop_end, app_nil_r. cbn [app fst].
    split; [reflexivity|]. split.
    + rewrite length_map. symmetry. apply (Forall2_length HF).
    + intros i VH Hi Hu.
      destruct (Forall2_nth_error_l _ _ _ HF i VH Hi) as (p & Hp & Hr).
      rewrite nth_error_map, Hp. cbn [option_map].
      rewrite (ref_resolves_unresolved r group n VH p Hr Hu).
      rewrite shaped_unmatched. reflexivity.
  - intros pre id post pieces -> HF Hid.
    rewrite enif_make_list_fold. cbn [enif_make_list].
    destruct (vlist_resolved r s opts group n pre pieces HF
                (TCons (TInt id) (enif_make_list post)) [] h Hh)
      as (h' & _ & E).
    rewrite E, vlist_int_not_positive by exact Hid. reflexivity.
Qed.

Lemma C3_reference_list_witness :
  let opts refs := mk_matchoptions false 0 VS_VLIST CT_BINARY (enif_make_list refs) in
  let run refs :=
    fst (re2_match_run (Sample.bytes "12-34") Sample.dash_re (opts refs) []) in
  (exists L,
      run [TInt 2; TInt 7; enif_make_atom "nope";
           erl_string (Sample.bytes "year")]
      = Return (TTuple [a_match; enif_make_list L])
      /\ nth_error L 1 = Some (TBinary [])
      /\ nth_error L 2 = Some (TBinary []))
  /\ run [TInt 1; TInt 0] = Return (error_tuple a_err_enif_alloc).
Proof.
  intros opts run.
  assert (HG : 0 <= NumberOfCapturingGroups Sample.dash_re < INT_MAX)
    by (unfold INT_MAX; simpl; lia).
  assert (Hh : never_fails []) by constructor.
  set (caps := [sp_sub 0 5; sp_sub 0 2; sp_sub 3 2]).
  split.
  - set (refs := [TInt 2; TInt 7; enif_make_atom "nope";
                  erl_string (Sample.bytes "year")]).
    pose proof (C3_reference_list (Sample.bytes "12-34") Sample.dash_re
                  (opts refs) caps refs []) as T.
    cbv zeta in T.
    destruct (T eq_refl HG eq_refl eq_refl eq_refl Hh) as [T1 _].
    destruct (T1 [group_at (submatch 3 caps) 2; sp_null; sp_null;
                  group_at (submatch 3 caps) 1]) as (L & E & _ & Hnth).
    { apply Forall2_cons;
        [apply (rr_int Sample.dash_re _ 3 2); [reflexivity | simpl; lia]|].
      apply Forall2_cons;
        [apply rr_int_out_of_range; [reflexivity | lia | simpl; lia]|].
      apply Forall2_cons;
        [apply (rr_atom_unknown Sample.dash_re _ 3 _ (Sample.bytes "nope"));
         [reflexivity | simpl; lia | reflexivity]|].
      apply Forall2_cons;
        [apply (rr_string Sample.dash_re _ 3 (Sample.bytes "year") 1);
         [simpl; lia | reflexivity]|].
      apply Forall2_nil. }
    exists L. split; [exact E|]. split.
    + apply (Hnth 1%nat (TInt 7)); [reflexivity|]. apply ru_int. simpl. lia.
    + apply (Hnth 2%nat (enif_make_atom "nope")); [reflexivity|].
      apply (ru_atom _ _ _ (Sample.bytes "nope")); reflexivity.
  - pose proof (C3_reference_list (Sample.bytes "12-34") Sample.dash_re
                  (opts [TInt 1; TInt 0]) caps [TInt 1; TInt 0] []) as T.
    cbv zeta in T.
    destruct (T eq_refl HG eq_refl eq_refl eq_refl Hh) as [_ T2].
    apply (T2 [TInt 1] 0 [] [group_at (submatch 3 caps) 1]).
    + reflexivity.
    + apply Forall2_cons; [|apply Forall2_nil].
      apply (rr_int Sample.dash_re _ 3 1); [reflexivity | simpl; lia].
    + left. lia.
Defined.

(** C3 as stated fails: on a call whose match succeeds, the references 0 and
    -3 do not yield the placeholder; the call returns
    [{error, enif_alloc}]. *)
Lemma C3_counterexample :
  let call refs :=
    fst (re2_match_impl Sample.RE2_new Sample.RE2_Options_default
           [TBinary (Sample.bytes "12-34"); Sample.dash_handle;
            enif_make_list [TTuple [a_capture; enif_make_list refs; a_index]]]
           []) in
  let range l r := TTuple [TInt l; TInt r] in
  call [TInt 1] = Return (TTuple [a_match; enif_make_list [range 0 2]])
  /\ call [TInt 1; TInt 0] = Return (error_tuple a_err_enif_alloc)
  /\ call [TInt 1; TInt 0]
     <> Return (TTuple [a_match; enif_make_list [range 0 2; unmatched CT_INDEX]])
  /\ call [TInt (-3)] = Return (error_tuple a_err_enif_alloc)
  /\ call [TInt (-3)]
     <> Return (TTuple [a_match; enif_make_list [unmatched CT_INDEX]]).
Proof. repeat split; discriminate. Qed.

(** In BINARY shape, a failed allocation for the placeholder of a number
    beyond the last slot goes unnoticed: the failure marker itself is pushed
    as if it were the value. *)
Lemma vlist_out_of_range_alloc_failure
  (r : RE2) (s : list byte) (opts : matchoptions) (group : list StringPiece)
  (n id : Z) (VT : term) (vec : list term) (h : allocator) :
  fits_int id = true -> 0 < id -> n <= id -> ct opts = CT_BINARY ->
  re2_match_ret_vlist_loop r s opts group n (TCons (TInt id) VT) vec (false :: h)
  = re2_match_ret_vlist_loop r s opts group n VT
      (vec ++ [a_err_enif_alloc_binary]) h.
Proof.
  intros Hfit Hpos Hn Hct.
  cbn [re2_match_ret_vlist_loop enif_get_int]. rewrite Hfit, Hct.
  destruct (Z.gtb_spec id 0) as [_|]; [|lia].
  destruct (Z.ltb_spec id n) as [|_]; [lia|]. reflexivity.
Qed.

(** C7 fails on the code.  With the reference list [[1, 7]] on a pattern of
    two groups, the second binary allocation failing, the call does not
    return [{error, enif_alloc_binary}]: it returns a match whose sequence
    holds the first capture and, in place of the second, the atom
    [enif_alloc_binary]. *)
Theorem C7_alloc_failure_in_list :
  fst (re2_match_impl Sample.RE2_new Sample.RE2_Options_default
         [TBinary (Sample.bytes "12-34"); Sample.dash_handle;
          enif_make_list [TTuple [a_capture; enif_make_list [TInt 1; TInt 7]]]]
         [true; false])
  = Return (TTuple [a_match;
                    enif_make_list [TBinary (Sample.bytes "12");
                                    a_err_enif_alloc_binary]])
  /\ fst (re2_match_impl Sample.RE2_new Sample.RE2_Options_default
            [TBinary (Sample.bytes "12-34"); Sample.dash_handle;
             enif_make_list [TTuple [a_capture; enif_make_list [TInt 1; TInt 2]]]]
            [true; false])
     = Return (error_tuple a_err_enif_alloc_binary).
Proof. split; reflexivity. Qed.

(** ** Compile errors *)

Lemma re2error_code_closed (c : ErrorCode) : In (re2error_code c) re2_error_atoms.
Proof. destruct c; cbn [re2error_code re2_error_atoms In]; tauto. Qed.

Lemma inline_pattern_not_handle (pat : term) (p : list byte) :
  enif_inspect_iolist_as_binary pat = Some p -> enif_get_resource pat = None.
Proof. destruct pat; try reflexivity. discriminate. Qed.

(** C8.  For a pattern the engine rejects: compile returns
    [{error, {Code, Message, Fragment}}], with [Code] in the closed set and
    message and fragment those of the engine; match and replace, given the
    same pattern as text, raise [badarg]. *)
Theorem C8_invalid_pattern
  (RE2_new : list byte -> RE2_Options -> RE2) (dflt : RE2_Options)
  (pat : term) (p : list byte) (h : allocator) :
  enif_inspect_iolist_as_binary pat = Some p ->
  (forall o, ok (RE2_new p o) = false) ->
  never_fails h ->
  (forall argv,
      argv = [pat]
      \/ (exists options,
             argv = [pat; options]
             /\ parse_compile_options options (set_log_errors false dflt)
                <> None) ->
      exists o,
        fst (re2_compile_impl RE2_new dflt argv h)
        = Return (TTuple [a_error;
                          TTuple [re2error_code (error_code (RE2_new p o));
                                  enif_make_string (error (RE2_new p o));
                                  enif_make_string (error_arg (RE2_new p o))]])
        /\ In (re2error_code (error_code (RE2_new p o))) re2_error_atoms)
  /\ (forall subject rest,
         fst (re2_match_impl RE2_new dflt (subject :: pat :: rest) h) = Badarg)
  /\ (forall subject tmpl rest,
         fst (re2_replace_impl RE2_new dflt (subject :: pat :: tmpl :: rest) h)
         = Badarg).
Proof.
  intros Hp Hbad Hh.
  destruct (never_fails_alloc h Hh) as (h1 & Ea & Hh1).
  destruct (never_fails_alloc h1 Hh1) as (h2 & Ea1 & _).
  pose proof (inline_pattern_not_handle pat p Hp) as Hres.
  split; [|split].
  - intros argv Hargv. unfold re2_compile_impl, enif_alloc_resource.
    assert (Hparse : exists o,
               (if Z.of_nat (List.length argv) =? 2
                then parse_compile_options (term_at argv 1)
                       (set_log_errors false dflt)
                else Some (set_log_errors false dflt)) = Some o
               /\ term_at argv 0 = pat).
    { destruct Hargv as [-> | (options & -> & Ho)].
      - eexists. split; reflexivity.
      - cbn [List.length Z.of_nat Pos.of_succ_nat Pos.succ Z.eqb Pos.eqb
             term_at nth].
        destruct (parse_compile_options options (set_log_errors false dflt))
          as [o|]; [|congruence].
        exists o. split; reflexivity. }
    destruct Hparse as (o & Eo & Epat). exists o.
    rewrite Epat, Hp, Ea. cbn [negb]. rewrite Eo, Ea1. cbn [negb].
    rewrite Hbad. cbn [negb fst]. split; [reflexivity|].
    apply re2error_code_closed.
  - intros subject rest. unfold re2_match_impl. cbn [term_at nth].
    destruct (enif_inspect_iolist_as_binary subject); [|reflexivity].
    destruct (if Z.of_nat _ =? 3 then _ else _) as [opts|]; [|reflexivity].
    rewrite Hres, Hp, Ea. cbn [negb]. unfold re2_match_run, re2_match_run_with.
    rewrite Hbad. reflexivity.
  - intros subject tmpl rest. unfold re2_replace_impl. cbn [term_at nth].
    destruct (enif_inspect_iolist_as_binary subject); [|reflexivity].
    destruct (enif_inspect_iolist_as_binary tmpl); [|reflexivity].
    rewrite Hres, Hp, Ea. cbn [negb]. unfold re2_replace_run.
    rewrite Hbad. reflexivity.
Qed.

Lemma C8_invalid_pattern_witness :
  let pat := TBinary (Sample.bytes "(foo") in
  fst (re2_compile_impl Sample.RE2_new Sample.RE2_Options_default
         [pat; enif_make_list [a_caseless]] [])
  = Return (TTuple [a_error;
                    TTuple [a_re2_ErrorMissingParen;
                            enif_make_string (Sample.bytes "missing ): (foo");
                            enif_make_string (Sample.bytes "(foo")]])
  /\ fst (re2_match_impl Sample.RE2_new Sample.RE2_Options_default
            [TBinary (Sample.bytes "foo"); pat] []) = Badarg
  /\ fst (re2_replace_impl Sample.RE2_new Sample.RE2_Options_default
            [TBinary (Sample.bytes "foo"); pat; TBinary (Sample.bytes "x")] [])
     = Badarg.
Proof.
  intros pat.
  assert (Hbad : forall o, ok (Sample.RE2_new (Sample.bytes "(foo") o) = false)
    by reflexivity.
  assert (Hh : never_fails []) by constructor.
  destruct (C8_invalid_pattern Sample.RE2_new Sample.RE2_Options_default
              pat (Sample.bytes "(foo") [] eq_refl Hbad Hh) as (Hc & Hm & Hr).
  split; [|split].
  - destruct (Hc [pat; enif_make_list [a_caseless]]) as (o & E & _).
    + right. exists (enif_make_list [a_caseless]). split; [reflexivity|].
      discriminate.
    + rewrite E. reflexivity.
  - apply Hm.
  - apply Hr.
Defined.

(** ** Replace *)

Lemma parse_replace_options_global (k : nat) (o : replaceoptions) :
  parse_replace_options (enif_make_list (repeat a_global (S k))) o
  = Some (mk_replaceoptions true).
Proof.
  revert o. induction k as [|k IH]; intros o; [reflexivity|].
  change (parse_replace_options (enif_make_list (repeat a_global (S (S k)))) o)
    with (parse_replace_options (enif_make_list (repeat a_global (S k)))
            (mk_replaceoptions true)).
  apply IH.
Qed.

Lemma re2_replace_impl_resolved
  (RE2_new : list byte -> RE2_Options -> RE2) (dflt : RE2_Options)
  (subject pat tmpl : term) (rest : list term) (s rw : list byte) (r : RE2)
  (h : allocator) :
  enif_inspect_iolist_as_binary subject = Some s ->
  enif_inspect_iolist_as_binary tmpl = Some rw ->
  resolves RE2_new dflt pat r ->
  never_fails h ->
  exists h',
    never_fails h'
    /\ re2_replace_impl RE2_new dflt (subject :: pat :: tmpl :: rest) h
       = re2_replace_run (subject :: pat :: tmpl :: rest) s rw r h'.
Proof.
  intros Hs Ht Hr Hh. unfold re2_replace_impl. cbn [term_at nth].
  rewrite Hs, Ht. destruct Hr as [-> | (p & Hp & ->)].
  - exists h. split; [exact Hh|reflexivity].
  - rewrite (inline_pattern_not_handle pat p Hp), Hp.
    destruct (never_fails_alloc h Hh) as (h1 & Ea & Hh1). rewrite Ea.
    exists h1. split; [exact Hh1|reflexivity].
Qed.

(** C9.  On a valid pattern, replace without the [global] flag returns what
    the engine's single (first occurrence) substitution makes of the subject
    and replace with the flag what its global (every non-overlapping
    occurrence) substitution makes of it, as a binary; when the engine reports
    that it substituted nothing, the result is the bare atom [error]. *)
Theorem C9_replace
  (RE2_new : list byte -> RE2_Options -> RE2) (dflt : RE2_Options)
  (subject pat tmpl : term) (s rw : list byte) (r : RE2) (h : allocator) :
  let call rest :=
    fst (re2_replace_impl RE2_new dflt (subject :: pat :: tmpl :: rest) h) in
  enif_inspect_iolist_as_binary subject = Some s ->
  enif_inspect_iolist_as_binary tmpl = Some rw ->
  resolves RE2_new dflt pat r ->
  ok r = true ->
  never_fails h ->
  call [] = (if fst (Replace r s rw)
             then Return (TBinary (snd (Replace r s rw)))
             else Return a_error)
  /\ call [enif_make_list []] = call []
  /\ forall k,
       call [enif_make_list (repeat a_global (S k))]
       = (if fst (GlobalReplace r s rw) =? 0
          then Return a_error
          else Return (TBinary (snd (GlobalReplace r s rw)))).
Proof.
  intros call Hs Ht Hr Hok Hh.
  assert (Hrres : forall h' out, never_fails h' ->
                                 fst (let '(t, h1) := rres out h' in (Return t, h1))
                                 = Return (TBinary out)).
  { intros h' out Hh'. unfold rres, enif_alloc_binary.
    destruct (never_fails_alloc h' Hh') as (h1 & -> & _). reflexivity. }
  assert (Hcall : forall rest,
             exists h', never_fails h'
                        /\ call rest
                           = fst (re2_replace_run (subject :: pat :: tmpl :: rest)
                                    s rw r h')).
  { intros rest.
    destruct (re2_replace_impl_resolved RE2_new dflt subject pat tmpl rest
                s rw r h Hs Ht Hr Hh) as (h' & Hh' & E).
    exists h'. unfold call. rewrite E. split; [exact Hh'|reflexivity]. }
  assert (Hsingle : forall h', never_fails h' ->
             fst (let '(replaced, s') := Replace r s rw in
                  if replaced
                  then let '(t, h1) := rres s' h' in (Return t, h1)
                  else (Return a_error, h'))
             = (if fst (Replace r s rw)
                then Return (TBinary (snd (Replace r s rw)))
                else Return a_error)).
  { intros h' Hh'. destruct (Replace r s rw) as [[|] s']; cbn [fst snd];
      [apply Hrres, Hh' | reflexivity]. }
  split; [|split].
  - destruct (Hcall []) as (h' & Hh' & ->). unfold re2_replace_run.
    rewrite Hok. apply Hsingle, Hh'.
  - destruct (Hcall []) as (h' & Hh' & ->).
    destruct (Hcall [enif_make_list []]) as (h'' & Hh'' & ->).
    unfold re2_replace_run. rewrite Hok.
    cbn [negb List.length Z.of_nat Pos.of_succ_nat Pos.succ Z.eqb Pos.eqb
         term_at nth enif_make_list parse_replace_options
         replaceoptions_init global].
    rewrite !Hsingle by assumption. reflexivity.
  - intros k.
    destruct (Hcall [enif_make_list (repeat a_global (S k))])
      as (h' & Hh' & ->).
    unfold re2_replace_run. rewrite Hok.
    cbn [negb List.length Z.of_nat Pos.of_succ_nat Pos.succ Z.eqb Pos.eqb
         term_at nth].
    rewrite parse_replace_options_global. cbn [global].
    destruct (GlobalReplace r s rw) as [count s']. cbn [fst snd].
    destruct (count =? 0); cbn [negb]; [reflexivity | apply Hrres, Hh'].
Qed.

Lemma C9_replace_witness :
  let call pat rest :=
    fst (re2_replace_impl Sample.RE2_new Sample.RE2_Options_default
           (TBinary (Sample.bytes "aXbXc") :: TBinary (Sample.bytes pat)
            :: TBinary (Sample.bytes "-") :: rest) []) in
  call "X"%string [] = Return (TBinary (Sample.bytes "a-bXc"))
  /\ call "X"%string [enif_make_list [a_global]]
     = Return (TBinary (Sample.bytes "a-b-c"))
  /\ call "Z"%string [] = Return a_error
  /\ call "Z"%string [enif_make_list [a_global]] = Return a_error.
Proof.
  intros call.
  assert (Hh : never_fails []) by constructor.
  assert (T : forall pat,
             resolves Sample.RE2_new Sample.RE2_Options_default
               (TBinary (Sample.bytes pat))
               (Sample.RE2_new (Sample.bytes pat)
                  (set_log_errors false Sample.RE2_Options_default)))
    by (intros pat; right; eexists; split; reflexivity).
  destruct (C9_replace Sample.RE2_new Sample.RE2_Options_default
              (TBinary (Sample.bytes "aXbXc")) (TBinary (Sample.bytes "X"))
              (TBinary (Sample.bytes "-")) (Sample.bytes "aXbXc")
              (Sample.bytes "-") _ [] eq_refl eq_refl (T "X"%string) eq_refl Hh)
    as (X1 & _ & Xg).
  destruct (C9_replace Sample.RE2_new Sample.RE2_Options_default
              (TBinary (Sample.bytes "aXbXc")) (TBinary (Sample.bytes "Z"))
              (TBinary (Sample.bytes "-")) (Sample.bytes "aXbXc")
              (Sample.bytes "-") _ [] eq_refl eq_refl (T "Z"%string) eq_refl Hh)
    as (Z1 & _ & Zg).
  split; [|split; [|split]].
  - exact X1.
  - exact (Xg 0%nat).
  - exact Z1.
  - exact (Zg 0%nat).
Defined.

(* ================================================================= *)
(** * Further properties of the code *)

(** ** The error mapper and the failure marker *)

(** X1.  The error term of a compile failure tells the engine's error codes
    apart as far as the switch names them: two engine objects with the same
    error term have the same code, unless both codes are among those the
    switch renders as [no_error], which are [NoError] and every code under
    its [default:] label. *)
Theorem X1_re2error_named_codes (r1 r2 : RE2) :
  re2error r1 = re2error r2 ->
  (error_code r1 = error_code r2
   \/ (unnamed_code (error_code r1) = true
       /\ unnamed_code (error_code r2) = true))
  /\ (unnamed_code (error_code r1) = true
      <-> re2error_code (error_code r1) = a_re2_NoError).
Proof.
  unfold re2error. intros E. injection E as Ec _ _. split.
  - destruct (error_code r1), (error_code r2);
      solve [ left; reflexivity
            | right; split; reflexivity
            | discriminate Ec ].
  - destruct (error_code r1); cbn [unnamed_code re2error_code];
      split; solve [reflexivity | discriminate].
Qed.

Lemma X1_re2error_named_codes_witness :
  let other c :=
    mkRE2 false c (error Sample.broken_re) (error_arg Sample.broken_re) 0 []
      (fun _ _ => None) (fun s _ => (false, s)) (fun s _ => (0, s)) in
  (error_code (other NoError) = error_code (other (ErrorCodeOther 99))
   \/ (unnamed_code (error_code (other NoError)) = true
       /\ unnamed_code (error_code (other (ErrorCodeOther 99))) = true))
  /\ (error_code (other ErrorMissingParen) = error_code Sample.broken_re
      \/ (unnamed_code (error_code (other ErrorMissingParen)) = true
          /\ unnamed_code (error_code Sample.broken_re) = true)).
Proof.
  intros other. split.
  - apply (X1_re2error_named_codes (other NoError) (other (ErrorCodeOther 99))).
    reflexivity.
  - apply (X1_re2error_named_codes (other ErrorMissingParen) Sample.broken_re).
    reflexivity.
Defined.

Lemma mres_outcome
  (str : list byte) (p : StringPiece) (ct : capture_type) (h : allocator) :
  (fst (mres str p ct h) = shaped str p ct
   /\ (ct = CT_BINARY -> enif_alloc_binary h = (true, snd (mres str p ct h)))
   /\ (ct <> CT_BINARY -> snd (mres str p ct h) = h))
  \/ (fst (mres str p ct h) = a_err_enif_alloc_binary
      /\ ct = CT_BINARY
      /\ enif_alloc_binary h = (false, snd (mres str p ct h))).
Proof.
  unfold shaped, mres. destruct ct.
  - left. destruct (sp_empty p); cbn [fst snd];
      (split; [reflexivity | split; [discriminate | reflexivity]]).
  - left. destruct (sp_empty p); cbn [fst snd];
      (split; [reflexivity | split; [discriminate | reflexivity]]).
  - destruct (enif_alloc_binary h) as [[|] h'] eqn:Ea; cbn [fst snd].
    + left. repeat split. intros N. contradiction N. reflexivity.
    + right. repeat split.
Qed.

(** X2.  The in-band failure marker of [mres] is sound: the value returned
    is the atom [enif_alloc_binary] exactly when the shape is BINARY and the
    binary allocation fails; in every other case it is the shaped capture,
    and outside BINARY shape the allocator is not touched at all. *)
Theorem X2_mres_marker
  (str : list byte) (p : StringPiece) (ct : capture_type) (h : allocator) :
  (enif_is_identical (fst (mres str p ct h)) a_err_enif_alloc_binary = true
   <-> ct = CT_BINARY /\ fst (enif_alloc_binary h) = false)
  /\ (enif_is_identical (fst (mres str p ct h)) a_err_enif_alloc_binary = false
      <-> fst (mres str p ct h) = shaped str p ct)
  /\ (ct <> CT_BINARY -> snd (mres str p ct h) = h).
Proof.
  destruct (mres_outcome str p ct h) as [(E & Hb & Hn) | (E & Hc & Ha)].
  - split; [|split].
    + rewrite E, shaped_not_marker. split; [discriminate|].
      intros [Hc Hf]. rewrite (Hb Hc) in Hf. discriminate Hf.
    + rewrite E, shaped_not_marker. tauto.
    + exact Hn.
  - split; [|split].
    + rewrite E. split; [|reflexivity]. intros _. split; [exact Hc|].
      rewrite Ha. reflexivity.
    + rewrite E. split; [discriminate|]. intros Es. exfalso.
      pose proof (shaped_not_marker str p ct) as N. rewrite <- Es in N.
      discriminate N.
    + intros N. contradiction.
Qed.

Lemma X2_mres_marker_witness :
  snd (mres (Sample.bytes "12-34") (sp_sub 0 2) CT_INDEX [false]) = [false].
Proof.
  apply (X2_mres_marker (Sample.bytes "12-34") (sp_sub 0 2) CT_INDEX [false]).
  discriminate.
Defined.

(** ** The parsers as left-to-right folds *)

Lemma parse_compile_options_fold (pre : list term) (T : term) :
  forall o,
    parse_compile_options (fold_right TCons T pre) o
    = match parse_compile_options (enif_make_list pre) o with
      | Some o1 => parse_compile_options T o1
      | None => None
      end.
Proof.
  induction pre as [|e pre IH]; intros o; [reflexivity|].
  cbn [fold_right enif_make_list parse_compile_options].
  destruct (enif_is_identical e a_caseless); [apply IH|].
  destruct e as [n|z| |hd tl|tuple|d|hh|tg]; try reflexivity.
  cbv zeta. destruct (Z.of_nat (List.length tuple) =? 2); [|apply IH].
  destruct (enif_is_identical (term_at tuple 0) a_max_mem); [|apply IH].
  destruct (enif_get_int (term_at tuple 1)); [apply IH | reflexivity].
Qed.

Lemma parse_match_options_fold (pre : list term) (T : term) :
  forall o,
    parse_match_options (fold_right TCons T pre) o
    = match parse_match_options (enif_make_list pre) o with
      | Some o1 => parse_match_options T o1
      | None => None
      end.
Proof.
  induction pre as [|e pre IH]; intros o; [reflexivity|].
  cbn [fold_right enif_make_list parse_match_options].
  destruct (enif_is_identical e a_caseless); [apply IH|].
  destruct e as [n|z| |hd tl|tuple|d|hh|tg]; try reflexivity.
  cbv zeta.
  destruct ((Z.of_nat (List.length tuple) =? 2)
            || (Z.of_nat (List.length tuple) =? 3)); [|apply IH].
  destruct (enif_is_identical (term_at tuple 0) a_offset).
  - destruct (enif_get_int (term_at tuple 1)); [apply IH | reflexivity].
  - destruct (enif_is_identical (term_at tuple 0) a_capture); apply IH.
Qed.

Lemma parse_replace_options_fold (pre : list term) (T : term) :
  forall o,
    parse_replace_options (fold_right TCons T pre) o
    = match parse_replace_options (enif_make_list pre) o with
      | Some o1 => parse_replace_options T o1
      | None => None
      end.
Proof.
  induction pre as [|e pre IH]; intros o; [reflexivity|].
  cbn [fold_right enif_make_list parse_replace_options].
  destruct (enif_is_identical e a_global); [apply IH | reflexivity].
Qed.

(** X3.  Each option parser is a left-to-right fold with failure: parsing a
    sequence followed by more entries is parsing the sequence and, unless
    that fails, parsing the rest from the options reached. *)
Theorem X3_parsers_compose (pre post : list term) :
  (forall o,
      parse_compile_options (enif_make_list (pre ++ post)) o
      = match parse_compile_options (enif_make_list pre) o with
        | Some o1 => parse_compile_options (enif_make_list post) o1
        | None => None
        end)
  /\ (forall o,
         parse_match_options (enif_make_list (pre ++ post)) o
         = match parse_match_options (enif_make_list pre) o with
           | Some o1 => parse_match_options (enif_make_list post) o1
           | None => None
           end)
  /\ (forall o,
         parse_replace_options (enif_make_list (pre ++ post)) o
         = match parse_replace_options (enif_make_list pre) o with
           | Some o1 => parse_replace_options (enif_make_list post) o1
           | None => None
           end).
Proof.
  rewrite enif_make_list_fold. split; [|split]; intros o.
  - apply parse_compile_options_fold.
  - apply parse_match_options_fold.
  - apply parse_replace_options_fold.
Qed.

Lemma parse_compile_options_flags (es : list term) :
  forall o o',
    parse_compile_options (enif_make_list es) o = Some o' ->
    log_errors o' = log_errors o
    /\ case_sensitive o'
       = if existsb (fun e => enif_is_identical e a_caseless) es
         then false else case_sensitive o.
Proof.
  induction es as [|e es IH]; intros o o' Hp.
  - injection Hp as <-. split; reflexivity.
  - cbn [enif_make_list parse_compile_options existsb] in *.
    destruct (enif_is_identical e a_caseless).
    + destruct (IH _ _ Hp) as [Hl Hc]. cbn [orb]. split; [exact Hl|].
      rewrite Hc. destruct (existsb _ es); reflexivity.
    + cbn [orb]. destruct e as [n|z| |hd tl|tuple|d|hh|tg]; try discriminate.
      cbv zeta in Hp.
      destruct (Z.of_nat (List.length tuple) =? 2); [|apply (IH _ _ Hp)].
      destruct (enif_is_identical (term_at tuple 0) a_max_mem);
        [|apply (IH _ _ Hp)].
      destruct (enif_get_int (term_at tuple 1)); [|discriminate].
      apply (IH _ _ Hp).
Qed.

(** X4.  What a successful compile-option parse does to the engine options:
    error logging is left as it was, matching is case-insensitive exactly
    when [caseless] occurs among the entries (and otherwise as it was), and
    a trailing [{max_mem, N}] decides the memory budget. *)
Theorem X4_compile_options_effect
  (es : list term) (o o' : RE2_Options) :
  parse_compile_options (enif_make_list es) o = Some o' ->
  log_errors o' = log_errors o
  /\ case_sensitive o'
     = (if existsb (fun e => enif_is_identical e a_caseless) es
        then false else case_sensitive o)
  /\ (forall pre N,
         es = pre ++ [TTuple [a_max_mem; TInt N]] -> max_mem o' = N).
Proof.
  intros Hp. destruct (parse_compile_options_flags es o o' Hp) as [Hl Hc].
  split; [exact Hl|]. split; [exact Hc|].
  intros pre N ->. rewrite enif_make_list_fold, parse_compile_options_fold in Hp.
  destruct (parse_compile_options (enif_make_list pre) o) as [o1|];
    [|discriminate].
  cbn [enif_make_list parse_compile_options] in Hp.
  change (enif_is_identical (TTuple [a_max_mem; TInt N]) a_caseless)
    with false in Hp.
  cbv zeta in Hp. cbn [List.length Z.of_nat Pos.of_succ_nat Pos.succ Z.eqb
                        Pos.eqb term_at nth] in Hp.
  change (enif_is_identical a_max_mem a_max_mem) with true in Hp.
  cbn [enif_get_int] in Hp. destruct (fits_int N); [|discriminate].
  injection Hp as <-. reflexivity.
Qed.

Lemma X4_compile_options_effect_witness :
  let es := [TTuple [a_max_mem; TInt 5]; a_caseless; TTuple [a_max_mem; TInt 64]] in
  exists o',
    parse_compile_options (enif_make_list es) Sample.RE2_Options_default = Some o'
    /\ log_errors o' = true /\ case_sensitive o' = false /\ max_mem o' = 64.
Proof.
  intros es.
  destruct (parse_compile_options (enif_make_list es) Sample.RE2_Options_default)
    as [o'|] eqn:Hp; [|discriminate Hp].
  exists o'. split; [reflexivity|].
  destruct (X4_compile_options_effect es Sample.RE2_Options_default o' Hp)
    as (Hl & Hc & Hm).
  split; [exact Hl|]. split; [exact Hc|].
  apply (Hm [TTuple [a_max_mem; TInt 5]; a_caseless] 64). reflexivity.
Defined.

Lemma parse_options_not_cons (t : term) :
  not_cons t ->
  (forall o, parse_compile_options t o = Some o)
  /\ (forall o, parse_match_options t o = Some o)
  /\ (forall o, parse_replace_options t o = Some o).
Proof.
  intros Hn. destruct t; try (repeat split; reflexivity).
  exfalso. apply (Hn t1 t2). reflexivity.
Qed.

(** X5.  An options argument that is not a list cell (the empty list, but
    also an atom, a number, a binary, a tuple) is accepted by compile, match
    and replace, and the call behaves as the call without options. *)
Theorem X5_options_not_a_list
  (RE2_new : list byte -> RE2_Options -> RE2) (dflt : RE2_Options)
  (subject pat tmpl t : term) (h : allocator) :
  not_cons t ->
  re2_compile_impl RE2_new dflt [pat; t] h
  = re2_compile_impl RE2_new dflt [pat] h
  /\ re2_match_impl RE2_new dflt [subject; pat; t] h
     = re2_match_impl RE2_new dflt [subject; pat] h
  /\ re2_replace_impl RE2_new dflt [subject; pat; tmpl; t] h
     = re2_replace_impl RE2_new dflt [subject; pat; tmpl] h.
Proof.
  intros Hn. destruct (parse_options_not_cons t Hn) as (Hc & Hm & Hr).
  split; [|split].
  - unfold re2_compile_impl.
    cbn [List.length Z.of_nat Pos.of_succ_nat Pos.succ Z.eqb Pos.eqb
         term_at nth]. rewrite Hc. reflexivity.
  - unfold re2_match_impl.
    cbn [List.length Z.of_nat Pos.of_succ_nat Pos.succ Z.eqb Pos.eqb
         term_at nth]. rewrite Hm. reflexivity.
  - unfold re2_replace_impl, re2_replace_run.
    cbn [List.length Z.of_nat Pos.of_succ_nat Pos.succ Z.eqb Pos.eqb
         term_at nth]. rewrite Hr. reflexivity.
Qed.

Lemma X5_options_not_a_list_witness :
  re2_match_impl Sample.RE2_new Sample.RE2_Options_default
    [TBinary (Sample.bytes "12-34"); Sample.dash_handle; enif_make_atom "caseless"]
    []
  = re2_match_impl Sample.RE2_new Sample.RE2_Options_default
      [TBinary (Sample.bytes "12-34"); Sample.dash_handle] [].
Proof.
  apply (X5_options_not_a_list Sample.RE2_new Sample.RE2_Options_default
           (TBinary (Sample.bytes "12-34")) Sample.dash_handle TNil
           (enif_make_atom "caseless") []).
  intros hd tl. discriminate.
Defined.

Lemma parse_match_options_offset_kept (es : list term) :
  forall o o',
    parse_match_options (enif_make_list es) o = Some o' ->
    forallb (fun e => negb (offset_entry e)) es = true ->
    offset o' = offset o.
Proof.
  induction es as [|e es IH]; intros o o' Hp Hno.
  - injection Hp as <-. reflexivity.
  - cbn [forallb] in Hno. apply andb_true_iff in Hno. destruct Hno as [He Hno].
    cbn [enif_make_list parse_match_options] in Hp.
    destruct (enif_is_identical e a_caseless); [apply (IH _ _ Hp Hno)|].
    destruct e as [n|z| |hd tl|tuple|d|hh|tg]; try discriminate.
    cbv zeta in Hp. unfold offset_entry in He.
    destruct ((Z.of_nat (List.length tuple) =? 2)
              || (Z.of_nat (List.length tuple) =? 3));
      [|apply (IH _ _ Hp Hno)].
    destruct (enif_is_identical (term_at tuple 0) a_offset); [discriminate He|].
    destruct (enif_is_identical (term_at tuple 0) a_capture).
    + rewrite (IH _ _ Hp Hno). apply parse_match_capture_options_offset.
    + apply (IH _ _ Hp Hno).
Qed.

(** X6.  The starting offset a successful match-option parse ends with is
    the payload of the last [offset] entry; without any, it is the one the
    parse started from (0 in [re2_match_impl]). *)
Theorem X6_last_offset_wins
  (es : list term) (o o' : matchoptions) :
  parse_match_options (enif_make_list es) o = Some o' ->
  (forallb (fun e => negb (offset_entry e)) es = true -> offset o' = offset o)
  /\ (forall pre N post,
         es = pre ++ TTuple [a_offset; TInt N] :: post ->
         forallb (fun e => negb (offset_entry e)) post = true ->
         offset o' = N).
Proof.
  intros Hp. split.
  - apply (parse_match_options_offset_kept es o o' Hp).
  - intros pre N post -> Hno.
    rewrite enif_make_list_fold, parse_match_options_fold in Hp.
    destruct (parse_match_options (enif_make_list pre) o) as [o1|];
      [|discriminate].
    cbn [enif_make_list parse_match_options] in Hp.
    change (enif_is_identical (TTuple [a_offset; TInt N]) a_caseless)
      with false in Hp.
    cbv zeta in Hp. cbn [List.length Z.of_nat Pos.of_succ_nat Pos.succ Z.eqb
                          Pos.eqb orb term_at nth] in Hp.
    change (enif_is_identical a_offset a_offset) with true in Hp.
    cbn [enif_get_int] in Hp. destruct (fits_int N); [|discriminate].
    rewrite (parse_match_options_offset_kept post _ _ Hp Hno). reflexivity.
Qed.

Lemma X6_last_offset_wins_witness :
  let es := [TTuple [a_offset; TInt 4]; a_caseless; TTuple [a_offset; TInt 1];
             TTuple [a_capture; a_first]] in
  exists o',
    parse_match_options (enif_make_list es) matchoptions_init = Some o'
    /\ offset o' = 1.
Proof.
  intros es.
  destruct (parse_match_options (enif_make_list es) matchoptions_init)
    as [o'|] eqn:Hp; [|discriminate Hp].
  exists o'. split; [reflexivity|].
  destruct (X6_last_offset_wins es matchoptions_init o' Hp) as [_ Hl].
  apply (Hl [TTuple [a_offset; TInt 4]; a_caseless] 1
            [TTuple [a_capture; a_first]]); reflexivity.
Defined.

(** ** Handles and inline patterns *)

Lemma re2_compile_impl_ok
  (RE2_new : list byte -> RE2_Options -> RE2) (dflt : RE2_Options)
  (argv : list term) (hc : allocator) (H : term) :
  fst (re2_compile_impl RE2_new dflt argv hc) = Return (TTuple [a_ok; H]) ->
  exists p o,
    enif_inspect_iolist_as_binary (term_at argv 0) = Some p
    /\ (if Z.of_nat (List.length argv) =? 2
        then parse_compile_options (term_at argv 1) (set_log_errors false dflt)
        else Some (set_log_errors false dflt)) = Some o
    /\ ok (RE2_new p o) = true
    /\ H = TResource (mk_handle (Some (RE2_new p o))).
Proof.
  unfold re2_compile_impl.
  destruct (enif_inspect_iolist_as_binary (term_at argv 0)) as [p|];
    [|discriminate].
  destruct (enif_alloc_resource hc) as [[|] h1]; [|discriminate].
  cbn [negb].
  destruct (if Z.of_nat (List.length argv) =? 2 then _ else _) as [o|];
    [|discriminate].
  destruct (enif_alloc h1) as [[|] h2]; [|discriminate]. cbn [negb].
  destruct (ok (RE2_new p o)) eqn:Hok; cbn [negb fst].
  - intros E. injection E as <-. exists p, o. repeat split. exact Hok.
  - unfold re2error. discriminate.
Qed.

Lemma re2_match_ret_vlist_loop_ct
  (r : RE2) (s : list byte) (o1 o2 : matchoptions) (group : list StringPiece)
  (n : Z) :
  ct o1 = ct o2 ->
  forall VL vec h,
    re2_match_ret_vlist_loop r s o1 group n VL vec h
    = re2_match_ret_vlist_loop r s o2 group n VL vec h.
Proof.
  intros Hc. induction VL as [nm|z| |VH _ VT IH|elts|d|hh|tg]; intros vec h;
    try reflexivity.
  cbn [re2_match_ret_vlist_loop]. rewrite Hc.
  repeat first
    [ apply IH
    | reflexivity
    | match goal with
      | |- context [match ?x with _ => _ end] =>
          match type of x with
          | sumbool _ _ => fail 1
          | _ => destruct x
          end
      end ].
Qed.

Lemma re2_match_run_plan
  (s : list byte) (r : RE2) (o1 o2 : matchoptions) (h : allocator) :
  capture_plan o1 = capture_plan o2 ->
  re2_match_run s r o1 h = re2_match_run s r o2 h.
Proof.
  unfold capture_plan. intros E. injection E as Eo Ev Ec El.
  unfold re2_match_run, re2_match_run_with, re2_match_ret_vlist. rewrite Eo, Ev, Ec, El.
  destruct (negb (ok r)); [reflexivity|].
  destruct (RE2_Match r s (offset o2) _) as [group|]; [|reflexivity].
  destruct (vs o2); try reflexivity.
  apply re2_match_ret_vlist_loop_ct, Ec.
Qed.

Lemma parse_match_options_caseless_flag (es : list term) :
  forall o o',
    parse_match_options (enif_make_list es) o = Some o' ->
    caseless o'
    = if existsb (fun e => enif_is_identical e a_caseless) es
      then true else caseless o.
Proof.
  induction es as [|e es IH]; intros o o' Hp.
  - injection Hp as <-. reflexivity.
  - cbn [enif_make_list parse_match_options existsb] in *.
    destruct (enif_is_identical e a_caseless); cbn [orb].
    + rewrite (IH _ _ Hp). destruct (existsb _ es); reflexivity.
    + destruct e as [n|z| |hd tl|tuple|d|hh|tg]; try discriminate.
      cbv zeta in Hp.
      destruct ((Z.of_nat (List.length tuple) =? 2)
                || (Z.of_nat (List.length tuple) =? 3));
        [|apply (IH _ _ Hp)].
      destruct (enif_is_identical (term_at tuple 0) a_offset).
      * destruct (enif_get_int (term_at tuple 1)); [|discriminate].
        apply (IH _ _ Hp).
      * destruct (enif_is_identical (term_at tuple 0) a_capture);
          [|apply (IH _ _ Hp)].
        rewrite (IH _ _ Hp), parse_match_capture_options_caseless.
        reflexivity.
Qed.

(** X7.  Matching against the handle that compile returned for a pattern
    gives the result of matching against the pattern text itself, with no
    options or with options that do not contain [caseless]; the inline call
    makes one more allocation, for the engine object. *)
Theorem X7_handle_or_inline
  (RE2_new : list byte -> RE2_Options -> RE2) (dflt : RE2_Options)
  (subject pat H : term) (es : list term) (hc h : allocator) :
  fst (re2_compile_impl RE2_new dflt [pat] hc) = Return (TTuple [a_ok; H]) ->
  existsb (fun e => enif_is_identical e a_caseless) es = false ->
  fst (re2_match_impl RE2_new dflt [subject; pat] (true :: h))
  = fst (re2_match_impl RE2_new dflt [subject; H] h)
  /\ fst (re2_match_impl RE2_new dflt [subject; pat; enif_make_list es]
            (true :: h))
     = fst (re2_match_impl RE2_new dflt [subject; H; enif_make_list es] h).
Proof.
  intros Hcomp Hes.
  destruct (re2_compile_impl_ok RE2_new dflt [pat] hc H Hcomp)
    as (p & o & Hp & Ho & Hok & ->).
  cbn [List.length Z.of_nat Pos.of_succ_nat Pos.succ Z.eqb Pos.eqb
       term_at nth] in Hp, Ho.
  injection Ho as <-.
  pose proof (inline_pattern_not_handle pat p Hp) as Hres.
  unfold re2_match_impl.
  cbn [List.length Z.of_nat Pos.of_succ_nat Pos.succ Z.eqb Pos.eqb
       term_at nth enif_get_resource].
  rewrite Hres, Hp.
  destruct (enif_inspect_iolist_as_binary subject) as [s|];
    [|split; reflexivity].
  split.
  - reflexivity.
  - destruct (parse_match_options (enif_make_list es) matchoptions_init)
      as [opts|] eqn:Hparse; [|reflexivity].
    rewrite (parse_match_options_caseless_flag es _ _ Hparse), Hes.
    reflexivity.
Qed.

Lemma X7_handle_or_inline_witness :
  let pat := TBinary (Sample.bytes "(?P<year>\d+)-(\d+)") in
  let opts := enif_make_list [TTuple [a_capture; a_all; a_index]] in
  fst (re2_match_impl Sample.RE2_new Sample.RE2_Options_default
         [TBinary (Sample.bytes "12-34"); pat; opts] [true])
  = fst (re2_match_impl Sample.RE2_new Sample.RE2_Options_default
           [TBinary (Sample.bytes "12-34"); Sample.dash_handle; opts] []).
Proof.
  intros pat opts.
  apply (X7_handle_or_inline Sample.RE2_new Sample.RE2_Options_default
           (TBinary (Sample.bytes "12-34")) pat Sample.dash_handle
           [TTuple [a_capture; a_all; a_index]] [] []); reflexivity.
Defined.

Lemma parse_match_capture_options_set_caseless
  (o : matchoptions) (tuple : list term) (arity : Z) :
  parse_match_capture_options (set_caseless true o) tuple arity
  = set_caseless true (parse_match_capture_options o tuple arity).
Proof.
  unfold parse_match_capture_options.
  repeat match goal with
         | |- context [if ?c then _ else _] => destruct c
         end; reflexivity.
Qed.

Lemma parse_match_options_set_caseless (L : term) :
  forall o,
    parse_match_options L (set_caseless true o)
    = option_map (set_caseless true) (parse_match_options L o).
Proof.
  induction L as [n|z| |H _ T IHT|elts|d|hh|tg]; intros o;
    try reflexivity.
  cbn [parse_match_options].
  destruct (enif_is_identical H a_caseless); [apply IHT|].
  destruct H as [n|z| |hd tl|tuple|d|hh|tg]; try reflexivity.
  cbv zeta.
  destruct ((Z.of_nat (List.length tuple) =? 2)
            || (Z.of_nat (List.length tuple) =? 3)); [|apply IHT].
  destruct (enif_is_identical (term_at tuple 0) a_offset).
  - destruct (enif_get_int (term_at tuple 1)) as [z|]; [|reflexivity].
    exact (IHT (set_offset z o)).
  - destruct (enif_is_identical (term_at tuple 0) a_capture); [|apply IHT].
    rewrite parse_match_capture_options_set_caseless. apply IHT.
Qed.

(** X8.  Caseless is allowed either in compile or in match: matching a
    subject against a handle compiled with [[caseless]] gives the result of
    matching it against the pattern text with [caseless] put in front of the
    same options. *)
Theorem X8_caseless_compile_or_match
  (RE2_new : list byte -> RE2_Options -> RE2) (dflt : RE2_Options)
  (subject pat H : term) (es : list term) (hc h : allocator) :
  fst (re2_compile_impl RE2_new dflt [pat; enif_make_list [a_caseless]] hc)
  = Return (TTuple [a_ok; H]) ->
  existsb (fun e => enif_is_identical e a_caseless) es = false ->
  fst (re2_match_impl RE2_new dflt
         [subject; pat; enif_make_list (a_caseless :: es)] (true :: h))
  = fst (re2_match_impl RE2_new dflt [subject; H; enif_make_list es] h).
Proof.
  intros Hcomp Hes.
  destruct (re2_compile_impl_ok RE2_new dflt _ hc H Hcomp)
    as (p & o & Hp & Ho & Hok & ->).
  cbn [List.length Z.of_nat Pos.of_succ_nat Pos.succ Z.eqb Pos.eqb
       term_at nth] in Hp, Ho.
  injection Ho as <-.
  pose proof (inline_pattern_not_handle pat p Hp) as Hres.
  unfold re2_match_impl.
  cbn [List.length Z.of_nat Pos.of_succ_nat Pos.succ Z.eqb Pos.eqb
       term_at nth enif_get_resource].
  rewrite Hres, Hp.
  destruct (enif_inspect_iolist_as_binary subject) as [s|]; [|reflexivity].
  change (parse_match_options (enif_make_list (a_caseless :: es))
            matchoptions_init)
    with (parse_match_options (enif_make_list es)
            (set_caseless true matchoptions_init)).
  rewrite parse_match_options_set_caseless.
  destruct (parse_match_options (enif_make_list es) matchoptions_init)
    as [opts|] eqn:Hparse; [|reflexivity].
  rewrite (parse_match_options_caseless_flag es _ _ Hparse), Hes.
  cbn [option_map caseless set_caseless enif_alloc negb].
  f_equal. apply re2_match_run_plan. reflexivity.
Qed.

Lemma X8_caseless_compile_or_match_witness :
  let pat := TBinary (Sample.bytes "X") in
  let H := TResource (mk_handle (Some (Sample.literal_re (Sample.bytes "X")))) in
  fst (re2_match_impl Sample.RE2_new Sample.RE2_Options_default
         [TBinary (Sample.bytes "aXb"); pat;
          enif_make_list [a_caseless; TTuple [a_capture; a_none]]] [true])
  = fst (re2_match_impl Sample.RE2_new Sample.RE2_Options_default
           [TBinary (Sample.bytes "aXb"); H;
            enif_make_list [TTuple [a_capture; a_none]]] []).
Proof.
  intros pat H.
  apply (X8_caseless_compile_or_match Sample.RE2_new
           Sample.RE2_Options_default (TBinary (Sample.bytes "aXb")) pat H
           [TTuple [a_capture; a_none]] [] []); reflexivity.
Defined.

(** ** Outcomes of a match *)

Lemma re2_match_run_none
  (s : list byte) (r : RE2) (opts : matchoptions) (h : allocator) :
  ok r = true ->
  vs opts = VS_NONE ->
  re2_match_run s r opts h
  = (Return (match captures r s (to_size_t (offset opts)) with
             | Some _ => a_match
             | None => a_nomatch
             end), h).
Proof.
  intros Hok Hv. unfold re2_match_run, re2_match_run_with, RE2_Match. rewrite Hok, Hv.
  cbn [negb]. destruct (captures r s (to_size_t (offset opts))); reflexivity.
Qed.

(** X9.  With the value-spec NONE a match against a handle returns the bare
    atom [match] or [nomatch], whatever the shape asked for, and allocates
    nothing: the allocator is handed back as it was received. *)
Theorem X9_none_allocates_nothing
  (RE2_new : list byte -> RE2_Options -> RE2) (dflt : RE2_Options)
  (subject options : term) (s : list byte) (r : RE2) (opts : matchoptions)
  (h : allocator) :
  enif_inspect_iolist_as_binary subject = Some s ->
  ok r = true ->
  parse_match_options options matchoptions_init = Some opts ->
  caseless opts = false ->
  vs opts = VS_NONE ->
  re2_match_impl RE2_new dflt
    [subject; TResource (mk_handle (Some r)); options] h
  = (Return (match captures r s (to_size_t (offset opts)) with
             | Some _ => a_match
             | None => a_nomatch
             end), h).
Proof.
  intros Hs Hok Hp Hc Hv. unfold re2_match_impl.
  cbn [List.length Z.of_nat Pos.of_succ_nat Pos.succ Z.eqb Pos.eqb
       term_at nth enif_get_resource].
  rewrite Hs, Hp, Hc. apply re2_match_run_none; assumption.
Qed.

Lemma X9_none_allocates_nothing_witness :
  re2_match_impl Sample.RE2_new Sample.RE2_Options_default
    [TBinary (Sample.bytes "12-34"); Sample.dash_handle;
     enif_make_list [TTuple [a_capture; a_none; a_binary]]] [false; false]
  = (Return a_match, [false; false]).
Proof.
  apply (X9_none_allocates_nothing Sample.RE2_new Sample.RE2_Options_default
           (TBinary (Sample.bytes "12-34")) _ (Sample.bytes "12-34")
           Sample.dash_re
           (parse_match_capture_options matchoptions_init
              [a_capture; a_none; a_binary] 3)); reflexivity.
Defined.

(** X10.  When the engine finds no match the call returns [nomatch]
    whatever the capture entry says: a reference list is not looked at
    before the engine has matched, so even one that could not be resolved
    goes unnoticed. *)
Theorem X10_nomatch
  (RE2_new : list byte -> RE2_Options -> RE2) (dflt : RE2_Options)
  (subject pat options : term) (s : list byte) (r : RE2)
  (opts : matchoptions) (h : allocator) :
  enif_inspect_iolist_as_binary subject = Some s ->
  parse_match_options options matchoptions_init = Some opts ->
  caseless opts = false ->
  resolves RE2_new dflt pat r ->
  ok r = true ->
  never_fails h ->
  captures r s (to_size_t (offset opts)) = None ->
  fst (re2_match_impl RE2_new dflt [subject; pat; options] h)
  = Return a_nomatch.
Proof.
  intros Hs Hp Hc Hr Hok Hh Hcap.
  destruct (re2_match_impl_resolved RE2_new dflt subject pat options s r
              opts h Hs Hp Hc Hr Hh) as (h' & _ & ->).
  unfold re2_match_run, re2_match_run_with, RE2_Match. rewrite Hok, Hcap. reflexivity.
Qed.

Lemma X10_nomatch_witness :
  fst (re2_match_impl Sample.RE2_new Sample.RE2_Options_default
         [TBinary (Sample.bytes "bbb"); Sample.dash_handle;
          enif_make_list [TTuple [a_capture; enif_make_list [TInt 0]]]] [])
  = Return a_nomatch.
Proof.
  apply (X10_nomatch Sample.RE2_new Sample.RE2_Options_default
           (TBinary (Sample.bytes "bbb")) Sample.dash_handle _
           (Sample.bytes "bbb") Sample.dash_re
           (parse_match_capture_options matchoptions_init
              [a_capture; enif_make_list [TInt 0]] 2) []);
    try reflexivity.
  - left. reflexivity.
  - constructor.
Defined.

Lemma re2_match_fill_outcome
  (s : list byte) (ct : capture_type) (group : list StringPiece) (k : nat) :
  forall i a h,
    (fst (re2_match_fill s ct group k i (Some a) h)
     = inl (Return (error_tuple a_err_enif_alloc_binary))
     /\ ct = CT_BINARY)
    \/ fst (re2_match_fill s ct group k i (Some a) h)
       = inr (a ++ shaped_from s ct group k i).
Proof.
  induction k as [|k IH]; intros i a h; cbn [re2_match_fill shaped_from].
  - right. rewrite app_nil_r. reflexivity.
  - pose proof (mres_outcome s (group_at group i) ct h) as M.
    destruct (mres s (group_at group i) ct h) as [res h1]. cbn [fst snd] in M.
    destruct M as [(-> & _) | (-> & Hc & _)].
    + rewrite shaped_not_marker.
      destruct (IH (i + 1) (a ++ [shaped s (group_at group i) ct]) h1)
        as [L | R]; [left; exact L | right].
      rewrite R, <- app_assoc. reflexivity.
    + left. split; [reflexivity | exact Hc].
Qed.

Lemma re2_match_fill_null
  (s : list byte) (ct : capture_type) (group : list StringPiece) (k : nat)
  (i : Z) (h : allocator) :
  (fst (re2_match_fill s ct group (S k) i None h)
   = inl (Return (error_tuple a_err_enif_alloc_binary))
   /\ ct = CT_BINARY)
  \/ fst (re2_match_fill s ct group (S k) i None h) = inl Segfault.
Proof.
  cbn [re2_match_fill].
  pose proof (mres_outcome s (group_at group i) ct h) as M.
  destruct (mres s (group_at group i) ct h) as [res h1]. cbn [fst snd] in M.
  destruct M as [(-> & _) | (-> & Hc & _)].
  - rewrite shaped_not_marker. right. reflexivity.
  - left. split; [reflexivity | exact Hc].
Qed.

Lemma all_values_length
  (s : list byte) (r : RE2) (caps : list StringPiece) (ct : capture_type)
  (start : Z) :
  List.length (all_values s r caps ct start)
  = Z.to_nat (NumberOfCapturingGroups r + 1 - start).
Proof. apply shaped_from_length. Qed.

(** X11.  With the value-spec ALL, ALL_BUT_FIRST or FIRST and any state of
    the allocator, a call whose engine match succeeds ends in one of three
    ways: the complete sequence (G + 1 values for ALL, G for ALL_BUT_FIRST,
    one for FIRST), the error [enif_alloc_binary], which only BINARY shape
    can give, or, for ALL and ALL_BUT_FIRST, a store through the null pointer
    of a failed array allocation.  A shortened sequence, or one holding the
    failure marker, is never returned. *)
Theorem X11_all_or_nothing
  (s : list byte) (r : RE2) (opts : matchoptions) (caps : list StringPiece)
  (h : allocator) :
  let out := fst (re2_match_run s r opts h) in
  let failed := Return (error_tuple a_err_enif_alloc_binary) in
  let complete L := Return (TTuple [a_match; enif_make_list L]) in
  ok r = true ->
  0 <= NumberOfCapturingGroups r < INT_MAX ->
  captures r s (to_size_t (offset opts)) = Some caps ->
  (vs opts = VS_ALL ->
   (out = failed /\ ct opts = CT_BINARY)
   \/ (out = Segfault /\ fst (enif_alloc h) = false)
   \/ (out = complete (all_values s r caps (ct opts) 0)
       /\ Z.of_nat (List.length (all_values s r caps (ct opts) 0))
          = NumberOfCapturingGroups r + 1))
  /\ (vs opts = VS_ALL_BUT_FIRST ->
      (out = failed /\ ct opts = CT_BINARY)
      \/ (out = Segfault /\ fst (enif_alloc h) = false)
      \/ (out = complete (all_values s r caps (ct opts) 1)
          /\ Z.of_nat (List.length (all_values s r caps (ct opts) 1))
             = NumberOfCapturingGroups r))
  /\ (vs opts = VS_FIRST ->
      (out = failed /\ ct opts = CT_BINARY)
      \/ out = complete [shaped s (group_at (submatch 1 caps) 0) (ct opts)]).
Proof.
  intros out failed complete Hok HG Hc.
  set (G := NumberOfCapturingGroups r) in *.
  assert (Hall : forall start,
             (vs opts = VS_ALL /\ start = 0)
             \/ (vs opts = VS_ALL_BUT_FIRST /\ start = 1) ->
             (out = failed /\ ct opts = CT_BINARY)
             \/ (out = Segfault /\ fst (enif_alloc h) = false)
             \/ out = complete (all_values s r caps (ct opts) start)).
  { intros start Hv. subst out. unfold re2_match_run, re2_match_run_with. rewrite Hok.
    cbn [negb]. fold G. rewrite (to_int_succ_groups G HG).
    assert (En : number_of_capturing_groups (G + 1) (vs opts) = G + 1)
      by (destruct Hv as [[-> _] | [-> _]]; reflexivity).
    rewrite En. unfold RE2_Match. rewrite Hc.
    assert (Es : (match vs opts with
                  | VS_ALL_BUT_FIRST => (1, to_int (G + 1 - 1))
                  | _ => (0, G + 1)
                  end) = (start, G + 1 - start)).
    { destruct Hv as [[-> ->] | [-> ->]].
      - f_equal. lia.
      - f_equal. replace (G + 1 - 1) with G by lia. apply to_int_id.
        unfold fits_int, INT_MIN, INT_MAX in *.
        rewrite andb_true_iff, !Z.leb_le. lia. }
    rewrite Es.
    set (group := submatch (Z.to_nat (G + 1)) caps).
    set (k := Z.to_nat (G + 1 - start)).
    destruct (enif_alloc h) as [[|] h1] eqn:Ea; cbn [fst].
    - pose proof (re2_match_fill_outcome s (ct opts) group k start [] h1) as F.
      destruct (re2_match_fill s (ct opts) group k start (Some []) h1)
        as [[res|arr] h2]; cbn [fst app] in F.
      + destruct F as [[F Hb] | F]; [|discriminate F].
        injection F as ->. left.
        destruct Hv as [[-> _] | [-> _]]; (split; [reflexivity | exact Hb]).
      + destruct F as [[F _] | F]; [discriminate F|]. injection F as ->.
        right; right. unfold enif_make_list_from_array.
        assert (El : firstn k (shaped_from s (ct opts) group k start)
                     = shaped_from s (ct opts) group k start).
        { rewrite <- (shaped_from_length s (ct opts) group k start) at 1.
          apply firstn_all. }
        change (Z.to_nat (G + 1 - start)) with k.
        destruct Hv as [[-> _] | [-> _]]; cbn [fst]; rewrite El; reflexivity.
    - destruct k as [|k'] eqn:Ek.
      + right; right. cbn [re2_match_fill fst].
        unfold enif_make_list_from_array, all_values. fold G.
        change (Z.to_nat (G + 1 - start)) with k. rewrite Ek, firstn_nil.
        destruct Hv as [[-> _] | [-> _]]; reflexivity.
      + pose proof (re2_match_fill_null s (ct opts) group k' start h1) as F.
        destruct (re2_match_fill s (ct opts) group (S k') start None h1)
          as [[res|arr] h2]; cbn [fst] in F.
        * destruct F as [[F Hb] | F]; injection F as ->.
          -- left. destruct Hv as [[-> _] | [-> _]];
               (split; [reflexivity | exact Hb]).
          -- right; left. destruct Hv as [[-> _] | [-> _]];
               (split; reflexivity).
        * destruct F as [[F _] | F]; discriminate F. }
  split; [|split].
  - intros Hv. destruct (Hall 0 (or_introl (conj Hv eq_refl)))
      as [L | [M | R]]; [left; exact L | right; left; exact M | right; right].
    split; [exact R|]. rewrite all_values_length. fold G. lia.
  - intros Hv. destruct (Hall 1 (or_intror (conj Hv eq_refl)))
      as [L | [M | R]]; [left; exact L | right; left; exact M | right; right].
    split; [exact R|]. rewrite all_values_length. fold G. lia.
  - intros Hv. subst out. unfold re2_match_run, re2_match_run_with. rewrite Hok, Hv.
    cbn [negb number_of_capturing_groups]. unfold RE2_Match. rewrite Hc.
    change (Z.to_nat 1) with 1%nat.
    pose proof (mres_outcome s (group_at (submatch 1 caps) 0) (ct opts) h) as M.
    destruct (mres s (group_at (submatch 1 caps) 0) (ct opts) h) as [res h1].
    cbn [fst snd] in M. destruct M as [(-> & _) | (-> & Hb & _)].
    + rewrite shaped_not_marker. right. reflexivity.
    + left. split; [reflexivity | exact Hb].
Qed.

Lemma X11_all_or_nothing_witness :
  let opts := mk_matchoptions false 0 VS_ALL CT_BINARY TNil in
  let caps := [sp_sub 0 5; sp_sub 0 2; sp_sub 3 2] in
  let out :=
    fst (re2_match_run (Sample.bytes "12-34") Sample.dash_re opts
           [true; true; false]) in
  (out = Return (error_tuple a_err_enif_alloc_binary) /\ ct opts = CT_BINARY)
  \/ (out = Segfault /\ fst (enif_alloc [true; true; false]) = false)
  \/ (out = Return (TTuple [a_match;
                            enif_make_list
                              (all_values (Sample.bytes "12-34") Sample.dash_re
                                 caps (ct opts) 0)])
      /\ Z.of_nat (List.length (all_values (Sample.bytes "12-34")
                                  Sample.dash_re caps (ct opts) 0))
         = NumberOfCapturingGroups Sample.dash_re + 1).
Proof.
  intros opts caps out.
  assert (HG : 0 <= NumberOfCapturingGroups Sample.dash_re < INT_MAX)
    by (unfold INT_MAX; simpl; lia).
  destruct (X11_all_or_nothing (Sample.bytes "12-34") Sample.dash_re opts caps
              [true; true; false] eq_refl HG eq_refl) as [Hall _].
  apply Hall. reflexivity.
Defined.

(** ** Reference lists *)

Lemma re2_match_ret_vlist_loop_stop
  (r : RE2) (s : list byte) (opts : matchoptions) (group : list StringPiece)
  (n : Z) (tl : term) (vec : list term) (h : allocator) :
  not_cons tl ->
  re2_match_ret_vlist_loop r s opts group n tl vec h
  = (Return (TTuple [a_match; enif_make_list vec]), h).
Proof.
  intros Hn.
  assert (E : forall t, not_cons t ->
                        re2_match_ret_vlist_loop r s opts group n t vec h
                        = re2_match_ret_vlist_loop r s opts group n TNil vec h).
  { intros t Ht. destruct t; try reflexivity. exfalso.
    apply (Ht t1 t2). reflexivity. }
  rewrite (E tl Hn). apply re2_match_ret_vlist_loop_end.
Qed.

Lemma re2_match_run_list
  (s : list byte) (r : RE2) (opts : matchoptions) (caps : list StringPiece)
  (refs : list term) (tl : term) (pieces : list StringPiece) (h : allocator) :
  let n := NumberOfCapturingGroups r + 1 in
  let group := submatch (Z.to_nat n) caps in
  ok r = true ->
  0 <= NumberOfCapturingGroups r < INT_MAX ->
  vs opts = VS_VLIST ->
  vlist opts = fold_right TCons tl refs ->
  not_cons tl ->
  captures r s (to_size_t (offset opts)) = Some caps ->
  never_fails h ->
  Forall2 (ref_resolves r group n) refs pieces ->
  fst (re2_match_run s r opts h)
  = Return (TTuple [a_match;
                    enif_make_list
                      (map (fun p => shaped s p (ct opts)) pieces)]).
Proof.
  intros n group Hok HG Hv Hl Htl Hc Hh HF.
  rewrite (re2_match_run_vlist s r opts caps h Hok HG Hv Hc), Hl.
  fold n. fold group.
  destruct (vlist_resolved r s opts group n refs pieces HF tl [] h Hh)
    as (h' & _ & ->).
  rewrite re2_match_ret_vlist_loop_stop by exact Htl. reflexivity.
Qed.

(** X13.  A reference list of well-formed references is resolved entry by
    entry: the result sequence holds, in the order of the references (not of
    the groups), the value of the slot each one stands for.  The list may
    end in any term that is not a list cell; that tail is ignored. *)
Theorem X13_list_in_reference_order
  (s : list byte) (r : RE2) (opts : matchoptions) (caps : list StringPiece)
  (refs : list term) (tl : term) (pieces : list StringPiece) (h : allocator) :
  let n := NumberOfCapturingGroups r + 1 in
  let group := submatch (Z.to_nat n) caps in
  ok r = true ->
  0 <= NumberOfCapturingGroups r < INT_MAX ->
  vs opts = VS_VLIST ->
  vlist opts = fold_right TCons tl refs ->
  not_cons tl ->
  captures r s (to_size_t (offset opts)) = Some caps ->
  never_fails h ->
  Forall2 (ref_resolves r group n) refs pieces ->
  fst (re2_match_run s r opts h)
  = Return (TTuple [a_match;
                    enif_make_list
                      (map (fun p => shaped s p (ct opts)) pieces)]).
Proof. exact (re2_match_run_list s r opts caps refs tl pieces h). Qed.

Lemma X13_list_in_reference_order_witness :
  let refs := [TInt 2; TInt 1] in
  let opts :=
    mk_matchoptions false 0 VS_VLIST CT_BINARY
      (fold_right TCons (enif_make_atom "junk") refs) in
  fst (re2_match_run (Sample.bytes "12-34") Sample.dash_re opts [])
  = Return (TTuple [a_match;
                    enif_make_list [TBinary (Sample.bytes "34");
                                    TBinary (Sample.bytes "12")]]).
Proof.
  intros refs opts.
  set (caps := [sp_sub 0 5; sp_sub 0 2; sp_sub 3 2]).
  assert (HG : 0 <= NumberOfCapturingGroups Sample.dash_re < INT_MAX)
    by (unfold INT_MAX; simpl; lia).
  apply (X13_list_in_reference_order (Sample.bytes "12-34") Sample.dash_re
           opts caps refs (enif_make_atom "junk")
           [group_at (submatch 3 caps) 2; group_at (submatch 3 caps) 1] []
           eq_refl HG eq_refl eq_refl).
  - intros hd t. discriminate.
  - reflexivity.
  - constructor.
  - apply Forall2_cons;
      [apply (rr_int Sample.dash_re _ 3 2); [reflexivity | simpl; lia]|].
    apply Forall2_cons;
      [apply (rr_int Sample.dash_re _ 3 1); [reflexivity | simpl; lia]|].
    apply Forall2_nil.
Defined.

(** X14.  A named group can be referred to by its name, as an atom or as a
    string, or by its number: the three calls that differ only in how one
    entry of the reference list spells the group return the same value. *)
Theorem X14_name_or_number
  (s : list byte) (r : RE2) (caps : list StringPiece)
  (pre post : list term) (before after : list StringPiece)
  (name : list N) (key : list byte) (idx : Z)
  (o : Z) (c : capture_type) (h : allocator) :
  let n := NumberOfCapturingGroups r + 1 in
  let group := submatch (Z.to_nat n) caps in
  let run ref :=
    fst (re2_match_run s r
           (mk_matchoptions false o VS_VLIST c
              (enif_make_list (pre ++ ref :: post))) h) in
  ok r = true ->
  0 <= NumberOfCapturingGroups r < INT_MAX ->
  captures r s (to_size_t o) = Some caps ->
  never_fails h ->
  Forall2 (ref_resolves r group n) pre before ->
  Forall2 (ref_resolves r group n) post after ->
  latin1 name = Some key ->
  (List.length name <= 255)%nat ->
  nmap_find (NamedCapturingGroups r) (c_str key) = Some idx ->
  0 < idx < n ->
  run (TAtom name) = run (TInt idx)
  /\ run (erl_string key) = run (TInt idx).
Proof.
  intros n group run Hok HG Hc Hh Hpre Hpost Hl Hlen Hf Hidx.
  assert (Hfit : fits_int idx = true).
  { unfold fits_int, INT_MIN, INT_MAX in *. subst n.
    rewrite andb_true_iff, !Z.leb_le. lia. }
  assert (Hkey : Z.of_nat (List.length key) < 2 ^ 32 - 1)
    by (rewrite (latin1_length name key Hl); lia).
  assert (Hrun : forall ref,
             ref_resolves r group n ref (group_at group idx) ->
             run ref
             = Return (TTuple [a_match;
                               enif_make_list
                                 (map (fun p => shaped s p c)
                                    (before ++ group_at group idx :: after))])).
  { intros ref Href. unfold run.
    apply (re2_match_run_list s r
             (mk_matchoptions false o VS_VLIST c
                (enif_make_list (pre ++ ref :: post)))
             caps (pre ++ ref :: post) TNil
             (before ++ group_at group idx :: after) h Hok HG eq_refl).
    - cbn [vlist]. rewrite <- (app_nil_r (pre ++ ref :: post)) at 1.
      apply enif_make_list_fold.
    - intros hd t. discriminate.
    - exact Hc.
    - exact Hh.
    - apply Forall2_app; [exact Hpre|]. apply Forall2_cons; assumption. }
  split.
  - rewrite (Hrun (TAtom name)) by (apply (rr_atom r group n name key idx); assumption).
    rewrite (Hrun (TInt idx)) by (apply rr_int; assumption). reflexivity.
  - rewrite (Hrun (erl_string key)) by (apply rr_string; assumption).
    rewrite (Hrun (TInt idx)) by (apply rr_int; assumption). reflexivity.
Qed.

Lemma X14_name_or_number_witness :
  let run ref :=
    fst (re2_match_run (Sample.bytes "12-34") Sample.dash_re
           (mk_matchoptions false 0 VS_VLIST CT_INDEX
              (enif_make_list ([TInt 2] ++ ref :: []))) []) in
  run (enif_make_atom "year") = run (TInt 1)
  /\ run (erl_string (Sample.bytes "year")) = run (TInt 1).
Proof.
  set (caps := [sp_sub 0 5; sp_sub 0 2; sp_sub 3 2]).
  assert (HG : 0 <= NumberOfCapturingGroups Sample.dash_re < INT_MAX)
    by (unfold INT_MAX; simpl; lia).
  apply (X14_name_or_number (Sample.bytes "12-34") Sample.dash_re caps
           [TInt 2] [] [group_at (submatch 3 caps) 2] []
           (map Byte.to_N (Sample.bytes "year")) (Sample.bytes "year") 1
           0 CT_INDEX [] eq_refl HG eq_refl).
  - constructor.
  - apply Forall2_cons; [|apply Forall2_nil].
    apply (rr_int Sample.dash_re _ 3 2); [reflexivity | simpl; lia].
  - apply Forall2_nil.
  - reflexivity.
  - simpl. lia.
  - reflexivity.
  - simpl. lia.
Defined.

Lemma enif_get_string_from_not_string (items : list term) :
  forall len n acc,
    1 <= len ->
    existsb (fun t => negb (byte_item t)) items = true ->
    fst (enif_get_string_from (enif_make_list items) len n acc) <= 0.
Proof.
  induction items as [|t items IH]; intros len n acc Hlen Hex;
    [discriminate Hex|].
  cbn [existsb] in Hex. cbn [enif_make_list enif_get_string_from].
  destruct t as [nm|z| |hd tl|elts|d|hh|tg]; try (cbn [fst]; lia).
  cbn [byte_item] in Hex. destruct (is_byte z); [|cbn [fst]; lia].
  cbn [negb orb] in Hex.
  destruct (n + 1 >=? len); [cbn [fst]; lia|].
  destruct (Byte.of_N (Z.to_N z)); [|cbn [fst]; lia].
  apply IH; assumption.
Qed.

Lemma vlist_no_length
  (r : RE2) (s : list byte) (opts : matchoptions) (group : list StringPiece)
  (n : Z) (bad VT : term) (vec : list term) (h : allocator) :
  enif_is_atom bad = false ->
  (forall z, enif_get_int bad = Some z -> z <= 0) ->
  enif_get_list_length bad = None ->
  re2_match_ret_vlist_loop r s opts group n (TCons bad VT) vec h
  = (Return (error_tuple a_err_enif_alloc), h).
Proof.
  intros Ha Hi Hl. cbn [re2_match_ret_vlist_loop].
  assert (E : (let '(got_int, nid) :=
                 match enif_get_int bad with
                 | Some z => (true, z)
                 | None => (false, 0)
                 end in got_int && (nid >? 0)) = false).
  { destruct (enif_get_int bad) as [z|]; [|reflexivity].
    specialize (Hi z eq_refl). cbn [andb].
    destruct (Z.gtb_spec z 0); [lia | reflexivity]. }
  destruct (enif_get_int bad) as [z|]; cbn [andb] in *;
    rewrite ?E, Ha; unfold alloc_str; rewrite Hl; reflexivity.
Qed.

Lemma vlist_atom_not_latin1
  (r : RE2) (s : list byte) (opts : matchoptions) (group : list StringPiece)
  (n : Z) (name : list N) (VT : term) (vec : list term) (h : allocator) :
  latin1 name = None ->
  re2_match_ret_vlist_loop r s opts group n (TCons (TAtom name) VT) vec h
  = (Return (error_tuple a_err_enif_alloc), h).
Proof.
  intros Hl. cbn [re2_match_ret_vlist_loop enif_get_int andb enif_is_atom].
  unfold alloc_atom. cbn [enif_get_atom_length]. rewrite Hl. reflexivity.
Qed.

Lemma vlist_not_string
  (r : RE2) (s : list byte) (opts : matchoptions) (group : list StringPiece)
  (n : Z) (items : list term) (VT : term) (vec : list term) (h : allocator) :
  existsb (fun t => negb (byte_item t)) items = true ->
  never_fails h ->
  fst (re2_match_ret_vlist_loop r s opts group n
         (TCons (enif_make_list items) VT) vec h)
  = Return (error_tuple a_err_enif_get_string).
Proof.
  intros Hex Hh. cbn [re2_match_ret_vlist_loop].
  assert (Hlen : exists len, enif_get_list_length (enif_make_list items)
                             = Some len).
  { clear. induction items as [|t items [len IH]]; [exists 0; reflexivity|].
    exists (len + 1). cbn [enif_make_list enif_get_list_length].
    rewrite IH. reflexivity. }
  destruct Hlen as [len Hlen].
  assert (Ei : enif_get_int (enif_make_list items) = None)
    by (destruct items; reflexivity).
  assert (Et : enif_is_atom (enif_make_list items) = false)
    by (destruct items; reflexivity).
  rewrite Ei, Et. cbn [andb]. unfold alloc_str. rewrite Hlen.
  destruct (never_fails_alloc h Hh) as (h1 & -> & _).
  unfold enif_get_string.
  destruct (Z.ltb_spec ((len + 1) mod 2 ^ 32) 1) as [|Hge].
  - reflexivity.
  - pose proof (enif_get_string_from_not_string items
                  ((len + 1) mod 2 ^ 32) 0 [] Hge Hex) as Hw.
    destruct (enif_get_string_from (enif_make_list items)
                ((len + 1) mod 2 ^ 32) 0 []) as [written str_id].
    cbn [fst] in Hw. destruct (Z.gtb_spec written 0); [lia | reflexivity].
Qed.

Lemma re2_match_run_list_abort
  (s : list byte) (r : RE2) (opts : matchoptions) (caps : list StringPiece)
  (pre : list term) (bad VT : term) (pieces : list StringPiece)
  (h : allocator) (e : nif_result) :
  let n := NumberOfCapturingGroups r + 1 in
  let group := submatch (Z.to_nat n) caps in
  ok r = true ->
  0 <= NumberOfCapturingGroups r < INT_MAX ->
  vs opts = VS_VLIST ->
  vlist opts = fold_right TCons (TCons bad VT) pre ->
  captures r s (to_size_t (offset opts)) = Some caps ->
  never_fails h ->
  Forall2 (ref_resolves r group n) pre pieces ->
  (forall vec h1,
      never_fails h1 ->
      fst (re2_match_ret_vlist_loop r s opts group n (TCons bad VT) vec h1) = e) ->
  fst (re2_match_run s r opts h) = e.
Proof.
  intros n group Hok HG Hv Hl Hc Hh HF Hbad.
  rewrite (re2_match_run_vlist s r opts caps h Hok HG Hv Hc), Hl.
  fold n. fold group.
  destruct (vlist_resolved r s opts group n pre pieces HF (TCons bad VT) [] h Hh)
    as (h' & Hh' & ->).
  apply Hbad, Hh'.
Qed.

(** X15.  A reference the resolver cannot decode stops the resolution with
    an error, once the well-formed references before it have been resolved:
    [{error, enif_alloc}] for a term that is neither a positive [int], nor
    an atom, nor a proper list (a binary, a tuple, a float, an improper
    list) and for an atom with a character outside Latin-1;
    [{error, enif_get_string}] for a list with an element that is not an
    integer in 0..255. *)
Theorem X15_undecodable_reference
  (s : list byte) (r : RE2) (opts : matchoptions) (caps : list StringPiece)
  (pre : list term) (bad VT : term) (pieces : list StringPiece)
  (h : allocator) :
  let n := NumberOfCapturingGroups r + 1 in
  let group := submatch (Z.to_nat n) caps in
  ok r = true ->
  0 <= NumberOfCapturingGroups r < INT_MAX ->
  vs opts = VS_VLIST ->
  vlist opts = fold_right TCons (TCons bad VT) pre ->
  captures r s (to_size_t (offset opts)) = Some caps ->
  never_fails h ->
  Forall2 (ref_resolves r group n) pre pieces ->
  (enif_is_atom bad = false ->
   (forall z, enif_get_int bad = Some z -> z <= 0) ->
   enif_get_list_length bad = None ->
   fst (re2_match_run s r opts h) = Return (error_tuple a_err_enif_alloc))
  /\ (forall name,
         bad = TAtom name -> latin1 name = None ->
         fst (re2_match_run s r opts h) = Return (error_tuple a_err_enif_alloc))
  /\ (forall items,
         bad = enif_make_list items ->
         existsb (fun t => negb (byte_item t)) items = true ->
         fst (re2_match_run s r opts h)
         = Return (error_tuple a_err_enif_get_string)).
Proof.
  intros n group Hok HG Hv Hl Hc Hh HF.
  pose proof (re2_match_run_list_abort s r opts caps pre bad VT pieces h)
    as A. cbv zeta in A. fold n in A. fold group in A.
  split; [|split].
  - intros Ha Hi Hlen. apply (A _ Hok HG Hv Hl Hc Hh HF).
    intros vec h1 _. rewrite vlist_no_length by assumption. reflexivity.
  - intros name -> Hlat. apply (A _ Hok HG Hv Hl Hc Hh HF).
    intros vec h1 _. rewrite vlist_atom_not_latin1 by assumption. reflexivity.
  - intros items -> Hex. apply (A _ Hok HG Hv Hl Hc Hh HF).
    intros vec h1 Hh1. apply vlist_not_string; assumption.
Qed.

Lemma X15_undecodable_reference_witness :
  let run refs :=
    fst (re2_match_run (Sample.bytes "12-34") Sample.dash_re
           (mk_matchoptions false 0 VS_VLIST CT_BINARY
              (fold_right TCons (TCons refs TNil) [TInt 1])) []) in
  run (TBinary (Sample.bytes "year")) = Return (error_tuple a_err_enif_alloc)
  /\ run (TAtom [960%N]) = Return (error_tuple a_err_enif_alloc)
  /\ run (enif_make_list [TInt 121; TInt 300])
     = Return (error_tuple a_err_enif_get_string).
Proof.
  intros run.
  set (caps := [sp_sub 0 5; sp_sub 0 2; sp_sub 3 2]).
  assert (HG : 0 <= NumberOfCapturingGroups Sample.dash_re < INT_MAX)
    by (unfold INT_MAX; simpl; lia).
  assert (HF : Forall2 (ref_resolves Sample.dash_re (submatch 3 caps) 3)
                 [TInt 1] [group_at (submatch 3 caps) 1]).
  { apply Forall2_cons; [|apply Forall2_nil].
    apply (rr_int Sample.dash_re _ 3 1); [reflexivity | simpl; lia]. }
  assert (Hh : never_fails []) by constructor.
  assert (T : forall bad,
             let opts := mk_matchoptions false 0 VS_VLIST CT_BINARY
                           (fold_right TCons (TCons bad TNil) [TInt 1]) in
             _ /\ _ /\ _)
    by (intros bad opts;
        exact (X15_undecodable_reference (Sample.bytes "12-34") Sample.dash_re
                 opts caps [TInt 1] bad TNil [group_at (submatch 3 caps) 1] []
                 eq_refl HG eq_refl eq_refl eq_refl Hh HF)).
  split; [|split].
  - apply (T (TBinary (Sample.bytes "year"))); try reflexivity. discriminate.
  - apply (proj1 (proj2 (T (TAtom [960%N]))) [960%N]); reflexivity.
  - apply (proj2 (proj2 (T (enif_make_list [TInt 121; TInt 300])))
             [TInt 121; TInt 300]); reflexivity.
Defined.

(** X12.  A ValueSpec that is neither an atom nor a list (a number, a
    binary, a tuple) selects the LIST mode with nothing to resolve: a call
    whose engine match succeeds returns [{match, []}] and allocates
    nothing. *)
Theorem X12_value_spec_not_a_list
  (RE2_new : list byte -> RE2_Options -> RE2) (dflt : RE2_Options)
  (subject V : term) (s : list byte) (r : RE2) (caps : list StringPiece)
  (h : allocator) :
  enif_inspect_iolist_as_binary subject = Some s ->
  ok r = true ->
  0 <= NumberOfCapturingGroups r < INT_MAX ->
  captures r s 0 = Some caps ->
  enif_is_atom V = false ->
  not_cons V ->
  V <> TNil ->
  re2_match_impl RE2_new dflt
    [subject; TResource (mk_handle (Some r));
     enif_make_list [TTuple [a_capture; V]]] h
  = (Return (TTuple [a_match; enif_make_list []]), h).
Proof.
  intros Hs Hok HG Hc Ha Hn Hnil. unfold re2_match_impl.
  cbn [List.length Z.of_nat Pos.of_succ_nat Pos.succ Z.eqb Pos.eqb
       term_at nth enif_get_resource].
  rewrite Hs.
  assert (Hp : parse_match_options (enif_make_list [TTuple [a_capture; V]])
                 matchoptions_init
               = Some (mk_matchoptions false 0 VS_VLIST CT_BINARY V)).
  { destruct V; try discriminate Ha; try reflexivity.
    contradiction Hnil. reflexivity. }
  rewrite Hp. cbn [caseless].
  rewrite (re2_match_run_vlist s r
             (mk_matchoptions false 0 VS_VLIST CT_BINARY V) caps h Hok HG
             eq_refl Hc).
  cbn [vlist]. apply re2_match_ret_vlist_loop_stop, Hn.
Qed.

Lemma X12_value_spec_not_a_list_witness :
  re2_match_impl Sample.RE2_new Sample.RE2_Options_default
    [TBinary (Sample.bytes "12-34"); Sample.dash_handle;
     enif_make_list [TTuple [a_capture; TInt 42]]] [false]
  = (Return (TTuple [a_match; enif_make_list []]), [false]).
Proof.
  apply (X12_value_spec_not_a_list Sample.RE2_new Sample.RE2_Options_default
           (TBinary (Sample.bytes "12-34")) (TInt 42) (Sample.bytes "12-34")
           Sample.dash_re [sp_sub 0 5; sp_sub 0 2; sp_sub 3 2] [false]);
    try reflexivity.
  - unfold INT_MAX. simpl. lia.
  - intros hd tl. discriminate.
  - discriminate.
Defined.

(** ** Handles *)

(** X16.  Releasing a handle destroys its engine object once: the resource
    destructor leaves the handle without object, and run again it destroys
    nothing more.  A handle without object is refused: match and replace
    raise [badarg] on it, whatever the other arguments. *)
Theorem X16_released_handle
  (RE2_new : list byte -> RE2_Options -> RE2) (dflt : RE2_Options)
  (handle : re2_handle) (destroyed : list RE2)
  (subject tmpl : term) (rest : list term) (h : allocator) :
  let released := fst (re2_resource_cleanup handle destroyed) in
  let log := snd (re2_resource_cleanup handle destroyed) in
  re released = None
  /\ log = match re handle with
           | Some obj => obj :: destroyed
           | None => destroyed
           end
  /\ re2_resource_cleanup released log = (released, log)
  /\ fst (re2_match_impl RE2_new dflt
            (subject :: TResource released :: rest) h) = Badarg
  /\ fst (re2_replace_impl RE2_new dflt
            (subject :: TResource released :: tmpl :: rest) h) = Badarg.
Proof.
  destruct handle as [[obj|]]; cbn [re2_resource_cleanup cleanup_handle
                                    cleanup_obj_ptr re fst snd];
    (repeat split;
     [ unfold re2_match_impl; cbn [term_at nth enif_get_resource];
       destruct (enif_inspect_iolist_as_binary subject); [|reflexivity];
       destruct (if Z.of_nat _ =? 3 then _ else _); reflexivity
     | unfold re2_replace_impl; cbn [term_at nth enif_get_resource];
       destruct (enif_inspect_iolist_as_binary subject); [|reflexivity];
       destruct (enif_inspect_iolist_as_binary tmpl); reflexivity ]).
Qed.

(** X17.  Compile hands out live handles only: whenever it returns
    [{ok, H}], [H] holds an engine object that the engine accepted, built
    from the bytes of the pattern argument under options that have error
    logging switched off, and these are the options the second argument, if
    there is one, parsed to. *)
Theorem X17_compiled_handle_is_valid
  (RE2_new : list byte -> RE2_Options -> RE2) (dflt : RE2_Options)
  (pat : term) (rest : list term) (hc : allocator) (H : term) :
  fst (re2_compile_impl RE2_new dflt (pat :: rest) hc)
  = Return (TTuple [a_ok; H]) ->
  exists p o,
    enif_inspect_iolist_as_binary pat = Some p
    /\ H = TResource (mk_handle (Some (RE2_new p o)))
    /\ ok (RE2_new p o) = true
    /\ log_errors o = false
    /\ (forall es, rest = [enif_make_list es] ->
                   parse_compile_options (enif_make_list es)
                     (set_log_errors false dflt) = Some o)
    /\ (rest = [] -> o = set_log_errors false dflt).
Proof.
  intros Hc.
  destruct (re2_compile_impl_ok RE2_new dflt (pat :: rest) hc H Hc)
    as (p & o & Hp & Ho & Hok & HH).
  cbn [term_at nth] in Hp. exists p, o.
  split; [exact Hp|]. split; [exact HH|]. split; [exact Hok|].
  split; [|split].
  - destruct (Z.of_nat (List.length (pat :: rest)) =? 2) eqn:E2.
    + apply Z.eqb_eq, length_two in E2. destruct E2 as (a & b & E).
      injection E as -> ->. cbn [term_at nth] in Ho.
      assert (G : forall L o0 o1,
                 parse_compile_options L o0 = Some o1 ->
                 log_errors o1 = log_errors o0).
      { induction L as [n|z| |e _ T IHT|elts|d|hh|tg]; intros o0 o1 Hq;
          try (injection Hq as <-; reflexivity).
        cbn [parse_compile_options] in Hq.
        destruct (enif_is_identical e a_caseless); [apply (IHT _ _ Hq)|].
        destruct e as [n|z| |hd tl|tuple|d|hh|tg]; try discriminate.
        cbv zeta in Hq.
        destruct (Z.of_nat (List.length tuple) =? 2); [|apply (IHT _ _ Hq)].
        destruct (enif_is_identical (term_at tuple 0) a_max_mem);
          [|apply (IHT _ _ Hq)].
        destruct (enif_get_int (term_at tuple 1)); [|discriminate].
        apply (IHT _ _ Hq). }
      rewrite (G _ _ _ Ho). reflexivity.
    + injection Ho as <-. reflexivity.
  - intros es ->. exact Ho.
  - intros ->. injection Ho as <-. reflexivity.
Qed.

Lemma X17_compiled_handle_is_valid_witness :
  exists p o,
    enif_inspect_iolist_as_binary (TBinary (Sample.bytes "X")) = Some p
    /\ TResource (mk_handle (Some (Sample.literal_re (Sample.bytes "X"))))
       = TResource (mk_handle (Some (Sample.RE2_new p o)))
    /\ ok (Sample.RE2_new p o) = true
    /\ log_errors o = false.
Proof.
  destruct (X17_compiled_handle_is_valid Sample.RE2_new
              Sample.RE2_Options_default (TBinary (Sample.bytes "X"))
              [enif_make_list [a_caseless]] []
              (TResource (mk_handle (Some (Sample.literal_re (Sample.bytes "X")))))
              eq_refl) as (p & o & Hp & HH & Hok & Hl & _).
  exists p, o. repeat split; assumption.
Defined.

(** ** Argument checks *)

(** X18.  Arguments of the wrong type are refused with [badarg] before any
    allocation is requested from the host allocator: a pattern, subject or
    template that is not iodata, and a pattern argument of match or replace
    that is neither a handle nor iodata. *)
Theorem X18_badarg_before_allocation
  (RE2_new : list byte -> RE2_Options -> RE2) (dflt : RE2_Options)
  (a b c : term) (rest : list term) (h : allocator) :
  (enif_inspect_iolist_as_binary a = None ->
   re2_compile_impl RE2_new dflt (a :: rest) h = (Badarg, h)
   /\ re2_match_impl RE2_new dflt (a :: rest) h = (Badarg, h)
   /\ re2_replace_impl RE2_new dflt (a :: rest) h = (Badarg, h))
  /\ (enif_get_resource b = None ->
      enif_inspect_iolist_as_binary b = None ->
      re2_match_impl RE2_new dflt (a :: b :: rest) h = (Badarg, h)
      /\ re2_replace_impl RE2_new dflt (a :: b :: c :: rest) h = (Badarg, h))
  /\ (enif_inspect_iolist_as_binary c = None ->
      re2_replace_impl RE2_new dflt (a :: b :: c :: rest) h = (Badarg, h)).
Proof.
  split; [|split].
  - intros Ha. unfold re2_compile_impl, re2_match_impl, re2_replace_impl.
    cbn [term_at nth]. rewrite Ha. repeat split.
  - intros Hr Hb. unfold re2_match_impl, re2_replace_impl.
    cbn [term_at nth]. rewrite Hr, Hb. split.
    + destruct (enif_inspect_iolist_as_binary a); [|reflexivity].
      destruct (if Z.of_nat _ =? 3 then _ else _); reflexivity.
    + destruct (enif_inspect_iolist_as_binary a); [|reflexivity].
      destruct (enif_inspect_iolist_as_binary c); reflexivity.
  - intros Hc. unfold re2_replace_impl. cbn [term_at nth]. rewrite Hc.
    destruct (enif_inspect_iolist_as_binary a); reflexivity.
Qed.

Lemma X18_badarg_before_allocation_witness :
  re2_match_impl Sample.RE2_new Sample.RE2_Options_default
    [TBinary (Sample.bytes "12-34"); enif_make_atom "pattern"] [false]
  = (Badarg, [false]).
Proof.
  apply (proj1 (proj2 (X18_badarg_before_allocation Sample.RE2_new
           Sample.RE2_Options_default (TBinary (Sample.bytes "12-34"))
           (enif_make_atom "pattern") TNil [] [false])));
    reflexivity.
Defined.

(** ** The two shapes of a capture *)




(** ** Replace on a handle *)

(** X20.  Replacing with the handle that compile returned for a pattern
    gives the result of replacing with the pattern text itself, with the
    same options; the inline call makes one more allocation, for the engine
    object. *)
Theorem X20_replace_handle_or_inline
  (RE2_new : list byte -> RE2_Options -> RE2) (dflt : RE2_Options)
  (subject pat tmpl H : term) (rest : list term) (hc h : allocator) :
  fst (re2_compile_impl RE2_new dflt [pat] hc) = Return (TTuple [a_ok; H]) ->
  fst (re2_replace_impl RE2_new dflt (subject :: pat :: tmpl :: rest)
         (true :: h))
  = fst (re2_replace_impl RE2_new dflt (subject :: H :: tmpl :: rest) h).
Proof.
  intros Hcomp.
  destruct (re2_compile_impl_ok RE2_new dflt [pat] hc H Hcomp)
    as (p & o & Hp & Ho & Hok & ->).
  cbn [List.length Z.of_nat Pos.of_succ_nat Pos.succ Z.eqb Pos.eqb
       term_at nth] in Hp, Ho.
  injection Ho as <-.
  pose proof (inline_pattern_not_handle pat p Hp) as Hres.
  unfold re2_replace_impl.
  cbn [term_at nth enif_get_resource]. rewrite Hres, Hp.
  destruct (enif_inspect_iolist_as_binary subject) as [s|]; [|reflexivity].
  destruct (enif_inspect_iolist_as_binary tmpl) as [rw|]; reflexivity.
Qed.

Lemma X20_replace_handle_or_inline_witness :
  let H := TResource (mk_handle (Some (Sample.literal_re (Sample.bytes "X")))) in
  fst (re2_replace_impl Sample.RE2_new Sample.RE2_Options_default
         [TBinary (Sample.bytes "aXbXc"); TBinary (Sample.bytes "X");
          TBinary (Sample.bytes "-"); enif_make_list [a_global]] [true])
  = fst (re2_replace_impl Sample.RE2_new Sample.RE2_Options_default
           [TBinary (Sample.bytes "aXbXc"); H;
            TBinary (Sample.bytes "-"); enif_make_list [a_global]] []).
Proof.
  intros H.
  apply (X20_replace_handle_or_inline Sample.RE2_new
           Sample.RE2_Options_default (TBinary (Sample.bytes "aXbXc"))
           (TBinary (Sample.bytes "X")) (TBinary (Sample.bytes "-")) H
           [enif_make_list [a_global]] [] []).
  reflexivity.
Defined.

(** ** Allocation failures while resolving a reference list *)

(** X21.  In a reference list, a failed allocation on a reference that
    stands for a slot aborts the resolution, whatever was resolved before:
    [{error, enif_alloc}] when the buffer for a name cannot be allocated,
    [{error, enif_alloc_binary}] when the binary for the value of a number
    in range or of a known name cannot. *)
Theorem X21_list_allocation_failures
  (r : RE2) (s : list byte) (opts : matchoptions) (group : list StringPiece)
  (n : Z) (VT : term) (vec : list term) (h : allocator) :
  let loop := re2_match_ret_vlist_loop r s opts group n in
  ct opts = CT_BINARY ->
  (forall id,
      fits_int id = true -> 0 < id < n ->
      loop (TCons (TInt id) VT) vec (false :: h)
      = (Return (error_tuple a_err_enif_alloc_binary), h))
  /\ (forall name key,
         latin1 name = Some key ->
         loop (TCons (TAtom name) VT) vec (false :: h)
         = (Return (error_tuple a_err_enif_alloc), h))
  /\ (forall name key idx,
         latin1 name = Some key -> (List.length name <= 255)%nat ->
         nmap_find (NamedCapturingGroups r) (c_str key) = Some idx ->
         loop (TCons (TAtom name) VT) vec (true :: false :: h)
         = (Return (error_tuple a_err_enif_alloc_binary), h))
  /\ (forall key,
         loop (TCons (erl_string key) VT) vec (false :: h)
         = (Return (error_tuple a_err_enif_alloc), h))
  /\ (forall key idx,
         Z.of_nat (List.length key) < 2 ^ 32 - 1 ->
         nmap_find (NamedCapturingGroups r) (c_str key) = Some idx ->
         loop (TCons (erl_string key) VT) vec (true :: false :: h)
         = (Return (error_tuple a_err_enif_alloc_binary), h)).
Proof.
  intros loop Hct. subst loop. repeat split.
  - intros id Hfit Hid.
    cbn [re2_match_ret_vlist_loop enif_get_int]. rewrite Hfit, Hct.
    destruct (Z.gtb_spec id 0) as [_|]; [|lia].
    destruct (Z.ltb_spec id n) as [_|]; [|lia]. cbn [andb].
    destruct (sp_empty (group_at group id)); reflexivity.
  - intros name key Hl.
    cbn [re2_match_ret_vlist_loop enif_get_int andb enif_is_atom].
    unfold alloc_atom. cbn [enif_get_atom_length]. rewrite Hl. reflexivity.
  - intros name key idx Hl Hlen Hf.
    cbn [re2_match_ret_vlist_loop enif_get_int andb enif_is_atom].
    unfold alloc_atom. cbn [enif_get_atom_length enif_get_atom enif_alloc].
    rewrite Hl. pose proof (latin1_length name key Hl) as Ek.
    rewrite Z.mod_small by lia.
    destruct (Z.ltb_spec (Z.of_nat (List.length key))
                (Z.of_nat (List.length key) + 1)) as [_|]; [|lia].
    destruct (Z.gtb_spec (Z.of_nat (List.length key) + 1) 0) as [_|]; [|lia].
    rewrite Hf, Hct. reflexivity.
  - intros key. cbn [re2_match_ret_vlist_loop].
    assert (Ei : enif_get_int (erl_string key) = None)
      by (destruct key; reflexivity).
    assert (Et : enif_is_atom (erl_string key) = false)
      by (destruct key; reflexivity).
    rewrite Ei, Et. cbn [andb]. unfold alloc_str.
    rewrite enif_get_list_length_string. reflexivity.
  - intros key idx Hlen Hf. cbn [re2_match_ret_vlist_loop].
    assert (Ei : enif_get_int (erl_string key) = None)
      by (destruct key; reflexivity).
    assert (Et : enif_is_atom (erl_string key) = false)
      by (destruct key; reflexivity).
    rewrite Ei, Et. cbn [andb]. unfold alloc_str.
    rewrite enif_get_list_length_string. cbn [enif_alloc].
    rewrite Z.mod_small by lia. unfold enif_get_string.
    destruct (Z.ltb_spec (Z.of_nat (List.length key) + 1) 1) as [|_]; [lia|].
    rewrite enif_get_string_from_string by lia. cbn [app].
    destruct (Z.gtb_spec (0 + Z.of_nat (List.length key) + 1) 0) as [_|]; [|lia].
    rewrite Hf, Hct. reflexivity.
Qed.

Lemma X21_list_allocation_failures_witness :
  re2_match_ret_vlist_loop Sample.dash_re (Sample.bytes "12-34")
    (mk_matchoptions false 0 VS_VLIST CT_BINARY TNil)
    [sp_sub 0 5; sp_sub 0 2; sp_sub 3 2] 3
    (TCons (enif_make_atom "year") TNil) [TBinary (Sample.bytes "34")]
    [true; false]
  = (Return (error_tuple a_err_enif_alloc_binary), []).
Proof.
  apply (proj1 (proj2 (proj2
           (X21_list_allocation_failures Sample.dash_re (Sample.bytes "12-34")
              (mk_matchoptions false 0 VS_VLIST CT_BINARY TNil)
              [sp_sub 0 5; sp_sub 0 2; sp_sub 3 2] 3 TNil
              [TBinary (Sample.bytes "34")] [] eq_refl)))
           (map Byte.to_N (Sample.bytes "year")) (Sample.bytes "year") 1).
  - reflexivity.
  - simpl. lia.
  - reflexivity.
Defined.
